(** * Node provisioning of kind: [pkg/cluster/internal/create/nodes.go]

    A shallow embedding of the Go file and the properties of its
    specification.  The layout follows the source:

    - [errors]: the two constructors of [github.com/pkg/errors] the file uses;
    - [Constants], [NodesAPI]: what the file imports from the packages
      [constants] and [nodes] (not part of the file), taken as interfaces;
    - [config]: configuration nodes living in a store of backing arrays,
      so that aliasing between slices can be stated;
    - role order, replica expansion, naming, [nodesToCreate];
    - [Create] and [fixupNode] over the external operations;
    - [createNodeContainers] as a labelled transition system of goroutines
      and two channels. *)

From Stdlib Require Import Ascii.
From stdpp Require Import base gmap list strings pretty sorting.

(** ** Errors *)

(** [errors.Errorf] builds an error from a message, [errors.Wrapf] puts a
    message in front of a cause.  Errors of the external operations are
    values of the same type. *)
Inductive error : Type :=
  | errorString (msg : string)
  | withMessage (cause : error) (msg : string).

Fixpoint Error (e : error) : string :=
  match e with
  | errorString msg => msg
  | withMessage cause msg => msg +:+ ": " +:+ Error cause
  end.

Definition Errorf (msg : string) : error := errorString msg.
Definition Wrapf (err : error) (msg : string) : error := withMessage err msg.

(** [strings.Contains hay needle], used to say that a message names a node. *)
Fixpoint has_prefix (needle hay : string) : bool :=
  match needle, hay with
  | EmptyString, _ => true
  | String a needle', String b hay' =>
      if decide (a = b) then has_prefix needle' hay' else false
  | String _ _, EmptyString => false
  end.

Fixpoint Contains (hay needle : string) : bool :=
  has_prefix needle hay ||
  match hay with
  | EmptyString => false
  | String _ hay' => Contains hay' needle
  end.

(** An error is annotated with a name when its message contains the name. *)
Definition annotated_with (name : string) (e : error) : Prop :=
  ∃ pre post, Error e = pre +:+ name +:+ post.

(** ** Integers *)

(** Go's [int32]: a [Z] wrapped into [-2^31, 2^31). *)
Definition int32_min : Z := -2147483648.
Definition int32_max : Z := 2147483647.
Definition int32 (z : Z) : Z := ((z + 2147483648) `mod` 4294967296 - 2147483648)%Z.
Definition is_int32 (z : Z) : Prop := (int32_min ≤ z ≤ int32_max)%Z.

(** ** Role constants of package [constants] *)

(** The four role strings are declared in [pkg/cluster/constants]; the
    file only names them, so they are parameters here.  They are taken
    to be distinct: for the three that label the cases of the [switch]
    in [Create] the Go compiler checks it, and kind declares a fourth
    string for external etcd. *)
Class Constants : Type := {
  ExternalLoadBalancerNodeRoleValue : string;
  ExternalEtcdNodeRoleValue : string;
  ControlPlaneNodeRoleValue : string;
  WorkerNodeRoleValue : string;
  role_values_distinct :
    NoDup [ExternalLoadBalancerNodeRoleValue; ExternalEtcdNodeRoleValue;
           ControlPlaneNodeRoleValue; WorkerNodeRoleValue]
}.

(** provisioning order for nodes by role *)
Definition defaultRoleOrder `{Constants} : list string :=
  [ExternalLoadBalancerNodeRoleValue; ExternalEtcdNodeRoleValue;
   ControlPlaneNodeRoleValue; WorkerNodeRoleValue].

(** ** Configuration nodes and the store *)

Definition loc : Type := nat.

(** A slice is [nil] or refers to its backing array.  The file never
    reslices, so a slice spans its whole array. *)
Definition slice : Type := option loc.

Module config.
(** [config.Node], declared in package [config]: the fields the file
    reads, at the types it reads them.  [Replicas] is a [*int32]: [None]
    is [nil], [Some r] points to an [int32] holding [r]; the file never
    writes through the pointer. *)
Record Node : Type := mkNode {
  Role : string;
  Image : string;
  ExtraMounts : slice;
  Replicas : option Z
}.

(** [config.Config], of which the file reads [Nodes] only. *)
Record Config : Type := mkConfig { Nodes : slice }.
End config.

(** Backing arrays: of [cri.Mount] (a type of another package, kept
    abstract) and of [config.Node]. *)
Inductive cell (Mount : Type) : Type :=
  | CMounts (ms : list Mount)
  | CNodes (ns : list config.Node).
Arguments CMounts {Mount} ms.
Arguments CNodes {Mount} ns.

Abbreviation heap Mount := (list (cell Mount)).

Section Store.
Context {Mount : Type}.

(** [make]: a new array gets the next free address. *)
Definition alloc (c : cell Mount) (h : heap Mount) : loc * heap Mount :=
  (length h, h ++ [c]).

Definition load_mounts (h : heap Mount) (s : slice) : list Mount :=
  match s with
  | None => []
  | Some p => match h !! p with Some (CMounts ms) => ms | _ => [] end
  end.

Definition load_nodes (h : heap Mount) (s : slice) : list config.Node :=
  match s with
  | None => []
  | Some p => match h !! p with Some (CNodes ns) => ns | _ => [] end
  end.

(** A node is well formed in a store when its mounts slice is [nil] or
    refers to an array of mounts, and its replica count is an [int32]. *)
Definition wf_node (h : heap Mount) (n : config.Node) : Prop :=
  match config.ExtraMounts n with
  | None => True
  | Some p => ∃ ms, h !! p = Some (CMounts ms)
  end ∧
  match config.Replicas n with
  | None => True
  | Some r => is_int32 r
  end.
(** What a node is, whatever array holds its mounts: role, image, and
    the mounts themselves ([None] for the nil slice). *)
Definition view (h : heap Mount) (n : config.Node) : string * string * option (list Mount) :=
  (config.Role n, config.Image n,
   (λ _, load_mounts h (config.ExtraMounts n)) <$> config.ExtraMounts n).

Definition wf_mounts (h : heap Mount) (n : config.Node) : Prop :=
  match config.ExtraMounts n with
  | None => True
  | Some p => ∃ ms, h !! p = Some (CMounts ms)
  end.

(** A slice of nodes is well formed in a store when it is [nil] or
    refers to an array of nodes, and its nodes are well formed. *)
Definition wf_nodes (h : heap Mount) (nodes : slice) : Prop :=
  match nodes with
  | None => True
  | Some p => ∃ ns, h !! p = Some (CNodes ns)
  end ∧ Forall (wf_node h) (load_nodes h nodes).

End Store.

(** ** Role order *)

(** The loop [for i, role := range roleOrder { orderMap[role] = i }].
    The index is a Go [int]; it stays below the length of the slice. *)
Fixpoint fillOrderMap (i : Z) (roleOrder : list string)
    (orderMap : gmap string Z) : gmap string Z :=
  match roleOrder with
  | [] => orderMap
  | role :: rest => fillOrderMap (i + 1) rest (<[role := i]> orderMap)
  end.

(** helper to convert an ordered slice of roles to a mapping of
    provisioning role to provisioning order *)
Definition makeRoleToOrder (roleOrder : list string) : string → Z :=
  let orderMap := fillOrderMap 0 roleOrder ∅ in
  λ role,
    match orderMap !! role with
    | None => 10000%Z
    | Some p => p
    end.

(** [sort.SliceStable] of the Go library: a stable sort.  An element is
    inserted in front of the sorted rest and moves right past the
    elements that are less than it, and past no other. *)
Section SliceStable.
Context {A : Type} (less : A → A → bool).

Fixpoint stable_insert (x : A) (l : list A) : list A :=
  match l with
  | [] => [x]
  | y :: l' => if less y x then y :: stable_insert x l' else x :: l
  end.

Fixpoint SliceStable (l : list A) : list A :=
  match l with
  | [] => []
  | x :: l' => stable_insert x (SliceStable l')
  end.
End SliceStable.

Definition lessByRole (roleToOrder : string → Z) (a b : config.Node) : bool :=
  bool_decide (roleToOrder (config.Role a) < roleToOrder (config.Role b))%Z.

(** The sort of [sortNodes], on the contents of the slice. *)
Definition sortedNodes (ns : list config.Node) (roleOrder : list string)
    : list config.Node :=
  let roleToOrder := makeRoleToOrder roleOrder in
  SliceStable (lessByRole roleToOrder) ns.

(** sorts nodes for provisioning: in place, in the array of the slice *)
Definition sortNodes {Mount} (h : heap Mount) (nodes : slice)
    (roleOrder : list string) : heap Mount :=
  match nodes with
  | None => h
  | Some p =>
      match h !! p with
      | Some (CNodes ns) => <[p := CNodes (sortedNodes ns roleOrder)]> h
      | _ => h
      end
  end.

(** ** Replica expansion *)

Section Expansion.
Context {Mount : Type}.

(** Modelled from the spec: [DeepCopy] of [config.Node] is generated
    code of package [config] and is not in the file.  The spec has
    "independent deep copies" and "expansion never aliases mutable
    sub-fields (e.g., extra-mount lists) across replicas": the copy
    has the fields of the original, and a mounts slice that is not
    [nil] is copied into a new array. *)
Definition DeepCopy (h : heap Mount) (node : config.Node)
    : config.Node * heap Mount :=
  match config.ExtraMounts node with
  | None => (node, h)
  | Some _ =>
      let '(p, h') :=
        alloc (CMounts (load_mounts h (config.ExtraMounts node))) h in
      (config.mkNode (config.Role node) (config.Image node) (Some p)
         (config.Replicas node), h')
  end.

(** [for i := int32(0); i < replicas; i++ { ... }], started at [i] with
    [fuel] rounds allowed. *)
Fixpoint replicaLoop (fuel : nat) (i replicas : Z) (node : config.Node)
    (out : list config.Node) (h : heap Mount)
    : list config.Node * heap Mount :=
  match fuel with
  | O => (out, h)
  | S fuel' =>
      if bool_decide (i < replicas)%Z then
        let '(outNode, h') := DeepCopy h node in
        (* outNode.Replicas = nil *)
        let outNode :=
          config.mkNode (config.Role outNode) (config.Image outNode)
            (config.ExtraMounts outNode) None in
        replicaLoop fuel' (int32 (i + 1)) replicas node (out ++ [outNode]) h'
      else (out, h)
  end.

(** Replica count of an entry: [1] unless the pointer is set. *)
Definition replicasOf (node : config.Node) : Z :=
  match config.Replicas node with
  | None => int32 1
  | Some r => r
  end.

(** [for _, node := range nodes { ... }].  The inner loop gets one
    round for each value [i] can take below [replicas]. *)
Fixpoint convertLoop (nodes : list config.Node) (out : list config.Node)
    (h : heap Mount) : list config.Node * heap Mount :=
  match nodes with
  | [] => (out, h)
  | node :: rest =>
      let replicas := replicasOf node in
      let '(out', h') :=
        replicaLoop (Z.to_nat replicas) 0 replicas node out h in
      convertLoop rest out' h'
  end.

(** [out] is local until it is returned; its array is placed in the
    store on return. *)
Definition convertReplicas (h : heap Mount) (nodes : slice)
    : slice * heap Mount :=
  let '(out, h') := convertLoop (load_nodes h nodes) [] h in
  let '(p, h'') := alloc (CNodes out) h' in
  (Some p, h'').

(** The sum of the replica counts. *)
Definition totalReplicas (ns : list config.Node) : Z :=
  foldr (λ n acc, replicasOf n + acc)%Z 0%Z ns.

(** The expansion of a list of entries: for each entry, in order, as
    many copies as its replica count says, none for a count below 1. *)
Definition expanded (h : heap Mount) (nodes : list config.Node)
    : list (string * string * option (list Mount)) :=
  nodes ≫= λ n, replicate (Z.to_nat (replicasOf n)) (view h n).

(** What the loops add to [out] and to the store. *)
Record expansion (h : heap Mount)
    (views : list (string * string * option (list Mount)))
    (new : list config.Node) (ext : heap Mount) : Prop := {
  exp_views : view (h ++ ext) <$> new = views;
  exp_cleared : Forall (λ n, config.Replicas n = None) new;
  exp_wf : Forall (wf_mounts (h ++ ext)) new;
  exp_nodup : NoDup (omap config.ExtraMounts new);
  exp_fresh : ∀ p, p ∈ omap config.ExtraMounts new →
                length h ≤ p < length (h ++ ext)
}.

End Expansion.

(** ** Node names *)

(** The closure returned by [makeNodeNamer]: the captured cluster name
    and the map [counter] it updates at every call.  Go's [int] has 64
    bits; a count is at most the number of calls, itself at most the
    length of a slice, so [count += v] does not wrap. *)
Record NodeNamer : Type := mkNamer {
  namerCluster : string;
  counter : gmap string Z
}.

Definition makeNodeNamer (clusterName : string) : NodeNamer :=
  mkNamer clusterName ∅.

(** One call [nameNode(role)]: the name and the closure afterwards. *)
Definition callNamer (nameNode : NodeNamer) (role : string)
    : string * NodeNamer :=
  let '(count, suffix) :=
    match counter nameNode !! role with
    | Some v => ((1 + v)%Z, pretty (1 + v)%Z)
    | None => (1%Z, "")
    end in
  (namerCluster nameNode +:+ "-" +:+ role +:+ suffix,
   mkNamer (namerCluster nameNode) (<[role := count]> (counter nameNode))).

(** ** Node specs *)

(** nodeSpec describes a node to create purely from the container aspect *)
Record nodeSpec : Type := mkSpec {
  Name : string;
  Role : string;
  Image : string;
  ExtraMounts : slice
}.

(** [for _, configNode := range configNodes { ... }] of [nodesToCreate]. *)
Fixpoint specLoop (configNodes : list config.Node) (nameNode : NodeNamer)
    (desiredNodes : list nodeSpec) : list nodeSpec :=
  match configNodes with
  | [] => desiredNodes
  | configNode :: rest =>
      let role := config.Role configNode in
      let '(name, nameNode') := callNamer nameNode role in
      specLoop rest nameNode'
        (desiredNodes ++
           [mkSpec name role (config.Image configNode)
              (config.ExtraMounts configNode)])
  end.

Definition nodesToCreate `{Constants} {Mount} (h : heap Mount)
    (cfg : config.Config) (clusterName : string)
    : list nodeSpec * heap Mount :=
  let nameNode := makeNodeNamer clusterName in
  let '(configNodes, h1) := convertReplicas h (config.Nodes cfg) in
  let h2 := sortNodes h1 configNodes defaultRoleOrder in
  (specLoop (load_nodes h2 configNodes) nameNode [], h2).

(** Decimal digits, as [fmt.Sprintf] with [%d] prints them. *)
Definition is_digit (c : ascii) : bool :=
  bool_decide (48 ≤ nat_of_ascii c ≤ 57).

Fixpoint all_digits (s : string) : bool :=
  match s with
  | EmptyString => true
  | String c s' => is_digit c && all_digits s'
  end.

(** Whether the last character of a string is a decimal digit. *)
Fixpoint last_digit (s : string) : bool :=
  match s with
  | EmptyString => false
  | String c EmptyString => is_digit c
  | String _ s' => last_digit s'
  end.

(** No role of the list is another role of the list followed by
    decimal digits. *)
Definition roles_unambiguous (roles : list string) : Prop :=
  ∀ r1 r2 t, r1 ∈ roles → r2 ∈ roles →
    t ≠ "" → all_digits t = true → r2 ≠ r1 +:+ t.

(** The suffix of the [k]-th name given to a role. *)
Definition suffixOf (k : Z) : string :=
  if decide (k = 1%Z) then "" else pretty k.

(** What the loop of [nodesToCreate] keeps true: counts start at 1, and
    every node named so far carries the name of a count its role has
    reached. *)
Record naming (c : string) (roles : list string) (m : gmap string Z)
    (acc : list nodeSpec) : Prop := {
  naming_counts : ∀ r v, m !! r = Some v → (1 ≤ v)%Z;
  naming_names : ∀ d, d ∈ acc →
    Role d ∈ roles ∧
    ∃ k v, m !! Role d = Some v ∧ (1 ≤ k ≤ v)%Z
           ∧ Name d = c +:+ "-" +:+ Role d +:+ suffixOf k;
  naming_nodup : NoDup (Name <$> acc)
}.

(** How many of the node specs have the given role. *)
Definition occurrences (role : string) (ds : list nodeSpec) : nat :=
  length (filter (λ d, Role d = role) ds).

(** The counter of the namer after the node specs [acc] were named. *)
Definition counts (m : gmap string Z) (acc : list nodeSpec) : Prop :=
  ∀ r, m !! r = if decide (occurrences r acc = 0) then None
                else Some (Z.of_nat (occurrences r acc)).

(** What a node spec is, whatever array holds its mounts. *)
Definition spec_view {Mount} (h : heap Mount) (d : nodeSpec)
    : string * string * option (list Mount) :=
  (Role d, Image d, (λ _, load_mounts h (ExtraMounts d)) <$> ExtraMounts d).

(** The fields a node spec takes over from its configuration node. *)
Definition spec_fields (d : nodeSpec) : string * string * slice :=
  (Role d, Image d, ExtraMounts d).

Definition node_fields (n : config.Node) : string * string * slice :=
  (config.Role n, config.Image n, config.ExtraMounts n).

(** ** The operations of package [nodes] *)

(** What the file calls in package [nodes].  The operations act on the
    container runtime, an opaque [World]; each returns its result and the
    world it leaves.  A creation returns the node or an error. *)
Class NodesAPI : Type := {
  World : Type;
  nodesNode : Type;
  nodeName : nodesNode → string;
  CreateExternalLoadBalancerNode :
    string → string → string → World → (nodesNode + error) * World;
  CreateControlPlaneNode :
    string → string → string → slice → World → (nodesNode + error) * World;
  CreateWorkerNode :
    string → string → string → slice → World → (nodesNode + error) * World;
  FixMounts : nodesNode → World → option error * World;
  NeedProxy : World → bool;
  SetProxy : nodesNode → World → option error * World;
  SignalStart : nodesNode → World → option error * World;
  timeNow : World → Z;
  WaitForDocker : nodesNode → Z → World → bool * World;
  LoadImages : nodesNode → World → World
}.

Definition Second : Z := 1000000000.

Section Tasks.
Context `{Constants} `{NodesAPI}.

(** [func (d *nodeSpec) Create(clusterLabel string)] *)
Definition Create (d : nodeSpec) (clusterLabel : string) (w : World)
    : (nodesNode + error) * World :=
  if decide (Role d = ExternalLoadBalancerNodeRoleValue) then
    CreateExternalLoadBalancerNode (Name d) (Image d) clusterLabel w
  else if decide (Role d = ControlPlaneNodeRoleValue) then
    CreateControlPlaneNode (Name d) (Image d) clusterLabel (ExtraMounts d) w
  else if decide (Role d = WorkerNodeRoleValue) then
    CreateWorkerNode (Name d) (Image d) clusterLabel (ExtraMounts d) w
  else
    (inr (Errorf ("unknown node role: " +:+ Role d)), w).

Definition fixupNode (node : nodesNode) (w : World) : option error * World :=
  match FixMounts node w with
  | (Some err, w) => (Some err, w)
  | (None, w) =>
      let '(err, w) :=
        if NeedProxy w then
          match SetProxy node w with
          | (Some err, w) =>
              (Some (Wrapf err
                 ("failed to set proxy for node " +:+ nodeName node)), w)
          | (None, w) => (None, w)
          end
        else (None, w) in
      match err with
      | Some err => (Some err, w)
      | None =>
          match SignalStart node w with
          | (Some err, w) => (Some err, w)
          | (None, w) =>
              match WaitForDocker node (timeNow w + Second * 30)%Z w with
              | (false, w) =>
                  (Some (Errorf
                     ("timed out waiting for docker to be ready on node "
                        +:+ nodeName node)), w)
              | (true, w) => (None, LoadImages node w)
              end
          end
      end
  end.

(** The body of the goroutine started for [desiredNode], up to the
    channel send it ends with: the node for [nodeChan] or the error for
    [errChan].  It is one move of the goroutine: the operations of one
    node are not interleaved with those of another. *)
Definition taskBody (desiredNode : nodeSpec) (clusterLabel : string)
    (w : World) : (nodesNode + error) * World :=
  match Create desiredNode clusterLabel w with
  | (inr err, w) => (inr err, w)
  | (inl node, w) =>
      match fixupNode node w with
      | (Some err, w) => (inr err, w)
      | (None, w) => (inl node, w)
      end
  end.
(** The proxy step of [fixupNode] without error, from world [w1] to
    world [w2]: no proxy is needed, or [SetProxy] succeeds. *)
Definition proxy_done (node : nodesNode) (w1 w2 : World) : Prop :=
  (NeedProxy w1 = false ∧ w2 = w1)
  ∨ (NeedProxy w1 = true ∧ SetProxy node w1 = (None, w2)).

(** The four ways [fixupNode], started in world [w0], ends with the
    error [err] in world [w']: [FixMounts] fails, and [err] is its
    error; [SetProxy] is needed and fails, and [err] is its error
    wrapped with the node's name; [SignalStart] fails, and [err] is its
    error; [WaitForDocker], given 30 seconds from the time it is called,
    answers no, and [err] is the timeout error with the node's name. *)
Definition fixup_error (node : nodesNode) (w0 : World) (err : error)
    (w' : World) : Prop :=
  FixMounts node w0 = (Some err, w')
  ∨ (∃ w1 cause,
       FixMounts node w0 = (None, w1) ∧ NeedProxy w1 = true
       ∧ SetProxy node w1 = (Some cause, w')
       ∧ err = Wrapf cause
                 ("failed to set proxy for node " +:+ nodeName node))
  ∨ (∃ w1 w2,
       FixMounts node w0 = (None, w1) ∧ proxy_done node w1 w2
       ∧ SignalStart node w2 = (Some err, w'))
  ∨ (∃ w1 w2 w3,
       FixMounts node w0 = (None, w1) ∧ proxy_done node w1 w2
       ∧ SignalStart node w2 = (None, w3)
       ∧ WaitForDocker node (timeNow w3 + Second * 30)%Z w3 = (false, w')
       ∧ err = Errorf
                 ("timed out waiting for docker to be ready on node "
                    +:+ nodeName node)).

(** The ways the goroutine of [d], started in world [w], ends with the
    error [err] in world [w']: the role is none of the three that
    [Create] dispatches, [err] is the unknown-role error and the world
    is untouched; the role is one of the three and its creation
    operation fails with [err]; the node is created and [fixupNode]
    ends with [err]. *)
Definition task_error (d : nodeSpec) (label : string) (w : World)
    (err : error) (w' : World) : Prop :=
  ((Role d ∉ [ExternalLoadBalancerNodeRoleValue; ControlPlaneNodeRoleValue;
              WorkerNodeRoleValue])
   ∧ err = Errorf ("unknown node role: " +:+ Role d) ∧ w' = w)
  ∨ (Role d = ExternalLoadBalancerNodeRoleValue
     ∧ CreateExternalLoadBalancerNode (Name d) (Image d) label w
       = (inr err, w'))
  ∨ (Role d = ControlPlaneNodeRoleValue
     ∧ CreateControlPlaneNode (Name d) (Image d) label (ExtraMounts d) w
       = (inr err, w'))
  ∨ (Role d = WorkerNodeRoleValue
     ∧ CreateWorkerNode (Name d) (Image d) label (ExtraMounts d) w
       = (inr err, w'))
  ∨ (∃ node w0,
       Create d label w = (inl node, w0) ∧ fixup_error node w0 err w').
End Tasks.

(** ** The orchestrator *)

(** [createNodeContainers] starts one goroutine per desired node and then
    collects from two channels.  Its runs are the runs of a transition
    system; an [action] names who moves.  The calls to [status], a
    progress logger, are left out: they do not touch the channels, the
    nodes or the result. *)
Section Orchestrator.
Context `{Constants} `{NodesAPI}.

(** Where a goroutine stands. *)
Inductive task : Type :=
  | Running (desiredNode : nodeSpec)   (* started, before its send *)
  | SendNode (node : nodesNode)        (* at [nodeChan <- node] *)
  | SendErr (err : error)              (* at [errChan <- err] *)
  | Finished                           (* the send went through *)
  | Panicked.                          (* send on a closed channel *)

(** Where [createNodeContainers] itself stands: at the [select] with the
    nodes collected so far, or returned with its two results (the nil
    slice is the empty list). *)
Inductive collector : Type :=
  | Collecting (allNodes : list nodesNode)
  | Returned (allNodes : list nodesNode) (err : option error).

Record state : Type := mkState {
  clusterLabel : string;
  world : World;
  wanted : nat;                  (* len(desiredNodes) *)
  tasks : list task;
  nodeChan : list nodesNode;     (* values waiting in the buffer *)
  nodeChanCap : nat;
  nodeChanClosed : bool;
  errChanClosed : bool;          (* errChan has no buffer *)
  main : collector
}.

(** The state after the [for ... range desiredNodes] loop: channels made,
    every goroutine started, the collector before its first [select]. *)
Definition started (desiredNodes : list nodeSpec) (label : string)
    (w : World) : state :=
  mkState label w (length desiredNodes) (Running <$> desiredNodes)
    [] (length desiredNodes) false false (Collecting []).

Definition createNodeContainers {Mount} (h : heap Mount)
    (cfg : config.Config) (clusterName label : string) (w : World) : state :=
  started (nodesToCreate h cfg clusterName).1 label w.

Inductive action : Type :=
  | Go (i : nat)     (* goroutine [i] moves *)
  | Select.          (* the collector takes [case node := <-nodeChan] *)

Definition set_task (s : state) (i : nat) (t : task) : state :=
  mkState (clusterLabel s) (world s) (wanted s) (<[i := t]> (tasks s))
    (nodeChan s) (nodeChanCap s) (nodeChanClosed s) (errChanClosed s) (main s).

(** [return allNodes, err], with the deferred [close(errChan)] and
    [close(nodeChan)]. *)
Definition do_return (s : state) (allNodes : list nodesNode)
    (err : option error) : state :=
  mkState (clusterLabel s) (world s) (wanted s) (tasks s)
    (nodeChan s) (nodeChanCap s) true true (Returned allNodes err).

(** One move.  [None]: the move is not possible now (the goroutine does
    not exist, has ended, or is blocked in its send; the [select] has
    nothing to receive).
    - A send on [nodeChan] puts the node in the buffer when there is
      room, blocks when there is none, and panics when the channel is
      closed.
    - A send on [errChan], which has no buffer, goes through when the
      collector is at its [select]: the collector takes
      [case err := <-errChan] and returns.  It panics when the channel
      is closed. *)
Definition step (a : action) (s : state) : option state :=
  match a with
  | Go i =>
      match tasks s !! i with
      | Some (Running desiredNode) =>
          let '(r, w) := taskBody desiredNode (clusterLabel s) (world s) in
          let t := match r with inl node => SendNode node | inr err => SendErr err end in
          Some (mkState (clusterLabel s) w (wanted s) (<[i := t]> (tasks s))
                  (nodeChan s) (nodeChanCap s) (nodeChanClosed s)
                  (errChanClosed s) (main s))
      | Some (SendNode node) =>
          if nodeChanClosed s then Some (set_task s i Panicked)
          else if decide (length (nodeChan s) < nodeChanCap s) then
            Some (mkState (clusterLabel s) (world s) (wanted s)
                    (<[i := Finished]> (tasks s))
                    (nodeChan s ++ [node]) (nodeChanCap s) (nodeChanClosed s)
                    (errChanClosed s) (main s))
          else None
      | Some (SendErr err) =>
          if errChanClosed s then Some (set_task s i Panicked)
          else
            match main s with
            | Collecting _ => Some (do_return (set_task s i Finished) [] (Some err))
            | Returned _ _ => None
            end
      | Some Finished | Some Panicked | None => None
      end
  | Select =>
      match main s, nodeChan s with
      | Collecting allNodes, node :: rest =>
          let allNodes := allNodes ++ [node] in
          let s' :=
            mkState (clusterLabel s) (world s) (wanted s) (tasks s) rest
              (nodeChanCap s) (nodeChanClosed s) (errChanClosed s)
              (Collecting allNodes) in
          if decide (length allNodes = wanted s) then
            Some (do_return s' allNodes None)
          else Some s'
      | _, _ => None
      end
  end.

(** A run: the moves of a schedule, one after the other. *)
Fixpoint run (schedule : list action) (s : state) : option state :=
  match schedule with
  | [] => Some s
  | a :: schedule' =>
      match step a s with
      | Some s' => run schedule' s'
      | None => None
      end
  end.

Definition has_returned (s : state) : Prop :=
  match main s with Returned _ _ => True | Collecting _ => False end.


(** Moves a goroutine still has to make, and whether it has delivered. *)
Definition weight (t : task) : nat :=
  match t with
  | Running _ => 2
  | SendNode _ | SendErr _ => 1
  | Finished | Panicked => 0
  end.

Definition delivered (t : task) : nat :=
  match t with Finished => 1 | _ => 0 end.

Definition collected (s : state) : list nodesNode :=
  match main s with Collecting allNodes | Returned allNodes _ => allNodes end.

Definition measure (s : state) : nat :=
  sum_list_with weight (tasks s) + (wanted s - length (collected s)).

(** What holds while the collector is at its [select], when at least one
    node is wanted: both channels are open, [nodeChan] has room for
    every goroutine, no goroutine has panicked, and every node delivered
    is in the buffer or collected. *)
Record collecting (s : state) (allNodes : list nodesNode) : Prop := {
  col_node_open : nodeChanClosed s = false;
  col_err_open : errChanClosed s = false;
  col_cap : nodeChanCap s = wanted s;
  col_tasks : length (tasks s) = wanted s;
  col_no_panic : Forall (λ t, t ≠ Panicked) (tasks s);
  col_count : length allNodes + length (nodeChan s)
              = sum_list_with delivered (tasks s);
  col_more : length allNodes < wanted s
}.

Definition live (s : state) : Prop :=
  match main s with
  | Returned _ _ => True
  | Collecting allNodes => collecting s allNodes
  end.

(** [produces label d r]: the body of the goroutine of [d] can end with
    [r], the node it sends or the error it sends. *)
Definition produces (label : string) (d : nodeSpec)
    (r : nodesNode + error) : Prop :=
  ∃ w w', taskBody d label w = (r, w').

(** A goroutine against its node spec [d] and the node [o] it has
    delivered so far, while the collector is at its [select]. *)
Definition task_ok (label : string) (entry : nodeSpec * option nodesNode)
    (t : task) : Prop :=
  match t with
  | Running d => d = entry.1 ∧ entry.2 = None
  | SendNode node => produces label entry.1 (inl node) ∧ entry.2 = None
  | SendErr err => produces label entry.1 (inr err) ∧ entry.2 = None
  | Finished => ∃ node, entry.2 = Some node ∧ produces label entry.1 (inl node)
  | Panicked => False
  end.

(** The history of a run from [started desiredNodes label w]: which
    nodes were delivered, by the goroutine of which node spec. *)
Definition traced (desiredNodes : list nodeSpec) (label : string)
    (s : state) : Prop :=
  match main s with
  | Collecting allNodes =>
      clusterLabel s = label ∧ wanted s = length desiredNodes
      ∧ nodeChanClosed s = false ∧ errChanClosed s = false
      ∧ ∃ trace : list (nodeSpec * option nodesNode),
          fst <$> trace = desiredNodes
          ∧ Forall2 (task_ok label) trace (tasks s)
          ∧ allNodes ++ nodeChan s ≡ₚ omap snd trace
  | Returned allNodes None =>
      ∃ produced,
        allNodes ≡ₚ produced
        ∧ Forall2 (λ d node, produces label d (inl node)) desiredNodes produced
        ∧ Forall (λ t, t = Finished) (tasks s)
        ∧ nodeChan s = []
  | Returned allNodes (Some err) =>
      allNodes = [] ∧ ∃ d, d ∈ desiredNodes ∧ produces label d (inr err)
  end.
End Orchestrator.

(** ** A sample valuation and a simulated runtime *)

(** Concrete values to run the definitions on: the role strings kind
    uses, and a runtime that logs every call and fails by image name. *)
Module Sample.

Lemma sample_roles_distinct :
  NoDup ["external-load-balancer"; "external-etcd"; "control-plane"; "worker"].
Proof. compute_done. Qed.

Definition constants : Constants :=
  Build_Constants "external-load-balancer" "external-etcd" "control-plane"
    "worker" sample_roles_distinct.

(** A node of the simulated runtime: its name and its image. *)
Definition simNode : Type := string * string.

Definition simCreate (kind name image : string) (w : list string)
    : (simNode + error) * list string :=
  let w := w ++ [kind +:+ " " +:+ name] in
  if decide (image = "missing") then (inr (errorString "no such image"), w)
  else (inl (name, image), w).

Definition simStep (op bad : string) (node : simNode) (w : list string)
    : option error * list string :=
  let w := w ++ [op +:+ " " +:+ node.1] in
  if decide (node.2 = bad) then (Some (errorString (op +:+ " failed")), w)
  else (None, w).

Definition api : NodesAPI := {|
  World := list string;
  nodesNode := simNode;
  nodeName := fst;
  CreateExternalLoadBalancerNode name image _ := simCreate "lb" name image;
  CreateControlPlaneNode name image _ _ := simCreate "control-plane" name image;
  CreateWorkerNode name image _ _ := simCreate "worker" name image;
  FixMounts := simStep "FixMounts" "badmounts";
  NeedProxy _ := true;
  SetProxy := simStep "SetProxy" "noproxy";
  SignalStart := simStep "SignalStart" "nostart";
  timeNow _ := 0%Z;
  WaitForDocker node _ w :=
    (bool_decide (node.2 ≠ "slow"), w ++ ["WaitForDocker " +:+ node.1]);
  LoadImages node w := w ++ ["LoadImages " +:+ node.1]
|}.

(** A store holding one configuration: the node array at address [0]. *)
Definition store (ns : list config.Node) : heap string := [CNodes ns].
Definition cfg : config.Config := config.mkConfig (Some 0).

Definition worker : config.Node := config.mkNode "worker" "img" None None.
Definition edge : config.Node := config.mkNode "edge" "img" None None.

End Sample.

(** * Properties *)

(** ** Role order and sorting *)

Lemma fillOrderMap_absent (roleOrder : list string) (i : Z)
    (orderMap : gmap string Z) (role : string) :
  role ∉ roleOrder → fillOrderMap i roleOrder orderMap !! role = orderMap !! role.
Proof.
  revert i orderMap. induction roleOrder as [|r rest IH]; intros i m Hnot; [done|].
  apply not_elem_of_cons in Hnot as [Hne Hrest]. simpl.
  rewrite IH by done. by rewrite lookup_insert_ne.
Qed.

Lemma fillOrderMap_present (roleOrder : list string) (i : Z)
    (orderMap : gmap string Z) (role : string) :
  role ∈ roleOrder →
  ∃ p, fillOrderMap i roleOrder orderMap !! role = Some p
       ∧ (i ≤ p < i + Z.of_nat (length roleOrder))%Z.
Proof.
  revert i orderMap. induction roleOrder as [|r rest IH]; intros i m Hin.
  { by apply elem_of_nil in Hin. }
  simpl. destruct (decide (role ∈ rest)) as [Hrest|Hrest].
  - destruct (IH (i + 1)%Z (<[r := i]> m) Hrest) as (p & Hp & Hrange).
    exists p. split; [done|]. simpl length. lia.
  - apply elem_of_cons in Hin as [->|Hin]; [|done].
    exists i. rewrite fillOrderMap_absent by done.
    rewrite lookup_insert_eq. split; [done|]. simpl length. lia.
Qed.

Lemma makeRoleToOrder_absent (roleOrder : list string) (role : string) :
  role ∉ roleOrder → makeRoleToOrder roleOrder role = 10000%Z.
Proof.
  intros Hnot. unfold makeRoleToOrder.
  by rewrite fillOrderMap_absent, lookup_empty.
Qed.

Lemma makeRoleToOrder_present (roleOrder : list string) (role : string) :
  role ∈ roleOrder →
  (0 ≤ makeRoleToOrder roleOrder role < Z.of_nat (length roleOrder))%Z.
Proof.
  intros Hin. unfold makeRoleToOrder.
  destruct (fillOrderMap_present roleOrder 0 ∅ role Hin) as (p & -> & Hp). lia.
Qed.

(** The role written last wins: the rank of the last entry is its index. *)
Lemma makeRoleToOrder_last (roleOrder : list string) (role : string) :
  makeRoleToOrder (roleOrder ++ [role]) role = Z.of_nat (length roleOrder).
Proof.
  unfold makeRoleToOrder.
  assert (∀ l i m, fillOrderMap i (l ++ [role]) m !! role
                   = Some (i + Z.of_nat (length l))%Z) as Hgen.
  { induction l as [|r l IH]; intros i m; simpl.
    - rewrite lookup_insert_eq. f_equal. lia.
    - rewrite IH. f_equal. lia. }
  rewrite Hgen. lia.
Qed.

Section SortFacts.
Context {A : Type} (key : A → Z).
Let less : A → A → bool := λ a b, bool_decide (key a < key b)%Z.
Let le : A → A → Prop := λ a b, (key a ≤ key b)%Z.

Lemma stable_insert_perm (x : A) (l : list A) : stable_insert less x l ≡ₚ x :: l.
Proof.
  induction l as [|y l IH]; simpl; [done|].
  destruct (less y x); [|done]. rewrite IH. apply Permutation_swap.
Qed.

Lemma SliceStable_perm (l : list A) : SliceStable less l ≡ₚ l.
Proof.
  induction l as [|x l IH]; simpl; [done|].
  rewrite stable_insert_perm. by rewrite IH.
Qed.

Lemma stable_insert_sorted (x : A) (l : list A) :
  StronglySorted le l → StronglySorted le (stable_insert less x l).
Proof.
  induction 1 as [|y l Hs IH Hall]; simpl.
  { repeat constructor. }
  unfold less at 1. case_bool_decide as Hlt.
  - constructor; [done|].
    rewrite stable_insert_perm. constructor; [unfold le; lia|done].
  - constructor; [by constructor|].
    constructor; [unfold le; lia|].
    eapply Forall_impl; [exact Hall|]. unfold le. intros z ?. lia.
Qed.

Lemma SliceStable_sorted (l : list A) : StronglySorted le (SliceStable less l).
Proof.
  induction l as [|x l IH]; simpl; [constructor|].
  by apply stable_insert_sorted.
Qed.

(** The sort is stable: among the elements of one key the order is the
    order of the input. *)
Lemma stable_insert_filter (k : Z) (x : A) (l : list A) :
  StronglySorted le l →
  filter (λ a, key a = k) (stable_insert less x l)
  = filter (λ a, key a = k) (x :: l).
Proof.
  induction 1 as [|y l Hs IH Hall]; [done|]. simpl stable_insert.
  unfold less at 1. case_bool_decide as Hlt; [|done].
  rewrite !filter_cons, IH, !filter_cons.
  repeat case_decide; try done; lia.
Qed.

Lemma SliceStable_stable (k : Z) (l : list A) :
  filter (λ a, key a = k) (SliceStable less l) = filter (λ a, key a = k) l.
Proof.
  induction l as [|x l IH]; [done|]. simpl SliceStable.
  rewrite stable_insert_filter by apply SliceStable_sorted.
  by rewrite !filter_cons, IH.
Qed.

Lemma sorted_lookup (l : list A) (i j : nat) (a b : A) :
  StronglySorted le l → i < j → l !! i = Some a → l !! j = Some b →
  (key a ≤ key b)%Z.
Proof.
  intros Hs. revert i j. induction Hs as [|y l Hs IH Hall]; intros i j Hij Hi Hj.
  { done. }
  destruct j as [|j]; [lia|]. destruct i as [|i]; simpl in *.
  - injection Hi as ->. rewrite Forall_lookup in Hall. by eapply Hall.
  - eapply IH; [|done..]. lia.
Qed.
End SortFacts.

Lemma sortedNodes_perm (ns : list config.Node) (roleOrder : list string) :
  sortedNodes ns roleOrder ≡ₚ ns.
Proof.
  apply (SliceStable_perm (λ n, makeRoleToOrder roleOrder (config.Role n))).
Qed.

Lemma load_nodes_sortNodes {Mount} (h : heap Mount) (nodes : slice)
    (roleOrder : list string) :
  load_nodes (sortNodes h nodes roleOrder) nodes
  = sortedNodes (load_nodes h nodes) roleOrder.
Proof.
  destruct nodes as [p|]; simpl; [|done].
  destruct (h !! p) as [c|] eqn:Hp.
  - destruct c as [ms|ns]; simpl; rewrite ?Hp; [done|].
    rewrite list_lookup_insert_eq; [done|]. by eapply lookup_lt_Some.
  - by rewrite Hp.
Qed.

(** C9, as amended: for a role order of at most 10000 entries, the
    rank of every role that is not in the list is the sentinel 10000,
    strictly above the rank of every role in the list; and [sortNodes]
    rearranges the nodes of the slice so that every node whose role is
    not in the list comes after every node whose role is in it. *)
Theorem unlisted_roles_sort_last {Mount} (roleOrder : list string)
    (h : heap Mount) (nodes : slice) :
  (Z.of_nat (length roleOrder) ≤ 10000)%Z →
  (∀ listed unlisted, listed ∈ roleOrder → unlisted ∉ roleOrder →
     (makeRoleToOrder roleOrder listed
      < makeRoleToOrder roleOrder unlisted)%Z
     ∧ makeRoleToOrder roleOrder unlisted = 10000%Z)
  ∧ load_nodes (sortNodes h nodes roleOrder) nodes ≡ₚ load_nodes h nodes
  ∧ (∀ i j a b,
       load_nodes (sortNodes h nodes roleOrder) nodes !! i = Some a →
       load_nodes (sortNodes h nodes roleOrder) nodes !! j = Some b →
       config.Role a ∈ roleOrder → config.Role b ∉ roleOrder → i < j).
Proof.
  intros Hlen.
  assert (∀ listed unlisted, listed ∈ roleOrder → unlisted ∉ roleOrder →
     (makeRoleToOrder roleOrder listed
      < makeRoleToOrder roleOrder unlisted)%Z
     ∧ makeRoleToOrder roleOrder unlisted = 10000%Z) as Hrank.
  { intros r r' Hin Hnot. rewrite (makeRoleToOrder_absent _ r') by done.
    pose proof (makeRoleToOrder_present _ _ Hin). lia. }
  split; [exact Hrank|]. rewrite load_nodes_sortNodes. unfold sortedNodes.
  set (key := λ n, makeRoleToOrder roleOrder (config.Role n)).
  split; [apply (SliceStable_perm key)|].
  intros i j a b Hi Hj Ha Hb.
  destruct (decide (i < j)) as [|Hge]; [done|exfalso].
  destruct (Hrank _ _ Ha Hb) as [Hlt _].
  destruct (decide (i = j)) as [->|Hne].
  - rewrite Hi in Hj. injection Hj as ->. done.
  - pose proof (sorted_lookup key _ j i b a (SliceStable_sorted key _)
                  ltac:(lia) Hj Hi) as Hle.
    unfold key in Hle. lia.
Qed.

(** ** Replica expansion *)

Lemma int32_id (z : Z) : is_int32 z → int32 z = z.
Proof.
  unfold is_int32, int32, int32_min, int32_max. intros Hz.
  rewrite Z.mod_small; lia.
Qed.

Section ExpansionFacts.
Context {Mount : Type}.
Implicit Types (h ext : heap Mount) (node n : config.Node).

Lemma wf_mounts_ext h ext n : wf_mounts h n → wf_mounts (h ++ ext) n.
Proof.
  unfold wf_mounts. destruct (config.ExtraMounts n) as [p|]; [|done].
  intros [ms Hp]. exists ms. by apply lookup_app_l_Some.
Qed.

Lemma view_ext h ext n : wf_mounts h n → view (h ++ ext) n = view h n.
Proof.
  unfold wf_mounts, view, load_mounts.
  destruct (config.ExtraMounts n) as [p|]; [|done].
  intros [ms Hp]. simpl. by rewrite (lookup_app_l_Some _ _ _ _ Hp), Hp.
Qed.

(** The store only grows: [DeepCopy] appends at most one array. *)
Lemma DeepCopy_grows h node : ∃ ext, (DeepCopy h node).2 = h ++ ext.
Proof.
  unfold DeepCopy. destruct (config.ExtraMounts node); simpl.
  - by eexists.
  - exists []. by rewrite app_nil_r.
Qed.

Lemma replicaLoop_grows fuel i replicas node out h :
  ∃ ext, (replicaLoop fuel i replicas node out h).2 = h ++ ext.
Proof.
  revert i out h. induction fuel as [|fuel IH]; intros i out h; simpl.
  { exists []. by rewrite app_nil_r. }
  case_bool_decide; [|exists []; by rewrite app_nil_r].
  destruct (DeepCopy_grows h node) as [e1 He1].
  destruct (DeepCopy h node) as [outNode h1]. simpl in He1. subst h1.
  edestruct IH as [e2 He2]. rewrite He2. exists (e1 ++ e2). by rewrite app_assoc.
Qed.

Lemma convertLoop_grows (nodes : list config.Node) out h :
  ∃ ext, (convertLoop nodes out h).2 = h ++ ext.
Proof.
  revert out h. induction nodes as [|node rest IH]; intros out h; simpl.
  { exists []. by rewrite app_nil_r. }
  destruct (replicaLoop_grows (Z.to_nat (replicasOf node)) 0
              (replicasOf node) node out h) as [e1 He1].
  destruct (replicaLoop _ _ _ _ _ _) as [out1 h1]. simpl in He1. subst h1.
  edestruct IH as [e2 He2]. rewrite He2. exists (e1 ++ e2). by rewrite app_assoc.
Qed.

Lemma expansion_nil h : expansion h [] [] [].
Proof.
  split; simpl; [done|constructor|constructor|constructor|].
  intros p Hp. by apply elem_of_nil in Hp.
Qed.

(** Two expansions in a row. *)
Lemma expansion_app h v1 new1 ext1 v2 new2 ext2 :
  expansion h v1 new1 ext1 → expansion (h ++ ext1) v2 new2 ext2 →
  expansion h (v1 ++ v2) (new1 ++ new2) (ext1 ++ ext2).
Proof.
  intros [Hv1 Hc1 Hw1 Hn1 Hf1] [Hv2 Hc2 Hw2 Hn2 Hf2].
  split; rewrite ?app_assoc.
  - rewrite fmap_app, Hv2. f_equal. rewrite <- Hv1.
    apply Forall_fmap_ext_1. eapply Forall_impl; [exact Hw1|].
    intros n Hn. by apply view_ext.
  - by apply Forall_app.
  - apply Forall_app. split; [|done].
    eapply Forall_impl; [exact Hw1|]. intros n Hn. by apply wf_mounts_ext.
  - rewrite omap_app. apply NoDup_app. split_and!; [done| |done].
    intros p Hp1 Hp2. apply Hf1 in Hp1. apply Hf2 in Hp2. lia.
  - intros p. rewrite omap_app, elem_of_app. intros [Hp|Hp].
    + apply Hf1 in Hp. rewrite !length_app in *. lia.
    + apply Hf2 in Hp. rewrite !length_app in *. lia.
Qed.

(** One round of the inner loop: a cleared deep copy. *)
Lemma DeepCopy_expansion h node :
  wf_mounts h node →
  ∃ outNode ext,
    DeepCopy h node = (outNode, h ++ ext)
    ∧ expansion h [view h node]
        [config.mkNode (config.Role outNode) (config.Image outNode)
           (config.ExtraMounts outNode) None] ext.
Proof.
  unfold DeepCopy, wf_mounts, view.
  destruct (config.ExtraMounts node) as [p|] eqn:Hem.
  - intros [ms Hp]. eexists _, _. split; [done|]. simpl.
    split; simpl.
    + unfold view. simpl. rewrite Hp.
      rewrite lookup_app_r, Nat.sub_diag by done. done.
    + by repeat constructor.
    + repeat constructor. unfold wf_mounts. simpl. eexists.
      rewrite lookup_app_r, Nat.sub_diag by done. done.
    + apply NoDup_singleton.
    + intros q Hq. apply list_elem_of_singleton in Hq as ->.
      rewrite length_app. simpl. lia.
  - intros _. exists node, []. rewrite app_nil_r. split; [done|].
    split; simpl; rewrite ?app_nil_r.
    + unfold view. simpl. by rewrite Hem.
    + by repeat constructor.
    + repeat constructor. unfold wf_mounts. simpl. by rewrite Hem.
    + rewrite Hem. simpl. constructor.
    + rewrite Hem. simpl. intros q Hq. by apply elem_of_nil in Hq.
Qed.

(** The inner loop makes [replicas - i] rounds, and stops by its own
    test: fuel beyond that is not used. *)
Lemma replicaLoop_expansion fuel i replicas node out h :
  is_int32 replicas → (0 ≤ i)%Z → Z.to_nat (replicas - i) ≤ fuel →
  wf_mounts h node →
  ∃ new ext,
    replicaLoop fuel i replicas node out h = (out ++ new, h ++ ext)
    ∧ expansion h (replicate (Z.to_nat (replicas - i)) (view h node)) new ext.
Proof.
  intros Hr. revert i out h.
  induction fuel as [|fuel IH]; intros i out h Hi Hfuel Hwf; simpl.
  { exists [], []. rewrite !app_nil_r. split; [done|].
    replace (Z.to_nat (replicas - i)) with 0 by lia. apply expansion_nil. }
  case_bool_decide as Hlt.
  - destruct (DeepCopy_expansion h node Hwf) as (outNode & e1 & -> & Hexp1).
    rewrite int32_id by (unfold is_int32, int32_min, int32_max in *; lia).
    destruct (IH (i + 1)%Z
                (out ++ [config.mkNode (config.Role outNode)
                           (config.Image outNode)
                           (config.ExtraMounts outNode) None])
                (h ++ e1)) as (new & e2 & -> & Hexp2);
      [lia|lia|by apply wf_mounts_ext|].
    eexists _, _. rewrite <- !app_assoc. split; [done|].
    replace (Z.to_nat (replicas - i)) with (S (Z.to_nat (replicas - (i + 1))))
      by lia.
    rewrite view_ext in Hexp2 by done.
    apply (expansion_app _ [_] _ _ _ _ _ Hexp1 Hexp2).
  - exists [], []. rewrite !app_nil_r. split; [done|].
    replace (Z.to_nat (replicas - i)) with 0 by lia. apply expansion_nil.
Qed.

Lemma replicasOf_int32 h node : wf_node h node → is_int32 (replicasOf node).
Proof.
  unfold wf_node, replicasOf. intros [_ Hr].
  destruct (config.Replicas node); [done|].
  unfold is_int32, int32_min, int32_max. by vm_compute.
Qed.

Lemma wf_node_mounts h node : wf_node h node → wf_mounts h node.
Proof. by intros [? _]. Qed.

Lemma wf_node_ext h ext node : wf_node h node → wf_node (h ++ ext) node.
Proof. intros [Hm Hr]. split; [by apply (wf_mounts_ext h ext node)|done]. Qed.

Lemma expanded_ext h ext (nodes : list config.Node) :
  Forall (wf_node h) nodes → expanded (h ++ ext) nodes = expanded h nodes.
Proof.
  unfold expanded. induction 1 as [|n l Hn Hl IHl]; [done|].
  rewrite !bind_cons, IHl. by rewrite view_ext by by apply wf_node_mounts.
Qed.

Lemma convertLoop_expansion (nodes : list config.Node) out h :
  Forall (wf_node h) nodes →
  ∃ new ext,
    convertLoop nodes out h = (out ++ new, h ++ ext)
    ∧ expansion h (expanded h nodes) new ext.
Proof.
  revert out h. induction nodes as [|node rest IH]; intros out h Hwf; simpl.
  { exists [], []. rewrite !app_nil_r. split; [done|]. apply expansion_nil. }
  apply Forall_cons in Hwf as [Hnode Hrest].
  destruct (replicaLoop_expansion (Z.to_nat (replicasOf node)) 0
              (replicasOf node) node out h) as (new1 & e1 & -> & Hexp1);
    [by eapply replicasOf_int32|lia|lia|by apply wf_node_mounts|].
  destruct (IH (out ++ new1) (h ++ e1)) as (new2 & e2 & -> & Hexp2).
  { eapply Forall_impl; [exact Hrest|]. intros n Hn. by apply wf_node_ext. }
  eexists _, _. rewrite <- !app_assoc. split; [done|].
  rewrite Z.sub_0_r in Hexp1. rewrite expanded_ext in Hexp2 by done.
  by apply (expansion_app _ _ _ _ _ _ _ Hexp1 Hexp2).
Qed.
End ExpansionFacts.

Section ConvertReplicas.
Context {Mount : Type}.
Implicit Types (h : heap Mount) (nodes : slice).

Lemma convertReplicas_unfold h nodes :
  wf_nodes h nodes →
  ∃ out ext,
    convertReplicas h nodes
    = (Some (length (h ++ ext)), (h ++ ext) ++ [CNodes out])
    ∧ expansion h (expanded h (load_nodes h nodes)) out ext.
Proof.
  intros [_ Hwf]. unfold convertReplicas.
  destruct (convertLoop_expansion _ [] h Hwf) as (out & ext & -> & Hexp).
  by exists out, ext.
Qed.

Lemma load_nodes_alloc h (ns : list config.Node) :
  load_nodes (h ++ [CNodes ns]) (Some (length h)) = ns.
Proof. simpl. by rewrite lookup_app_r, Nat.sub_diag. Qed.

Lemma length_expanded h (ns : list config.Node) :
  length (expanded h ns) = sum_list ((Z.to_nat ∘ replicasOf) <$> ns).
Proof.
  unfold expanded. induction ns as [|n ns IH]; [done|].
  rewrite bind_cons, length_app, length_replicate, IH. done.
Qed.

(** C6, as amended: [convertReplicas] has no error result and returns
    for every well-formed input, whatever the sign of the replica
    counts: it returns a slice on a new array, and an entry contributes
    as many nodes as its count says when the count is positive, and none
    when it is zero or negative. *)
Theorem convertReplicas_never_fails h nodes :
  wf_nodes h nodes →
  ∃ p h' out,
    convertReplicas h nodes = (Some p, h')
    ∧ h !! p = None
    ∧ h' !! p = Some (CNodes out)
    ∧ length out
      = sum_list ((Z.to_nat ∘ replicasOf) <$> load_nodes h nodes).
Proof.
  intros Hwf.
  destruct (convertReplicas_unfold h nodes Hwf) as (out & ext & -> & Hexp).
  eexists _, _, out. split; [done|]. split_and!.
  - apply lookup_ge_None. rewrite length_app. lia.
  - by rewrite lookup_app_r, Nat.sub_diag.
  - rewrite <- length_expanded with (h := h).
    rewrite <- (exp_views _ _ _ _ Hexp). by rewrite length_fmap.
Qed.

(** C7: for entries with replica counts [r_1 .. r_k], all at least 0
    (an unset count is 1), [convertReplicas] yields [r_1 + ... + r_k]
    nodes; they are, entry after entry in input order, [r_i] copies of
    entry [i] (same role, image and mounts), each with its replica field
    cleared; and no array of mounts is shared: the mounts slices of the
    output that are not nil refer to arrays that are pairwise different
    and that did not exist before the call. *)
Theorem convertReplicas_independent_copies h nodes :
  wf_nodes h nodes →
  Forall (λ n, 0 ≤ replicasOf n)%Z (load_nodes h nodes) →
  ∃ out h',
    convertReplicas h nodes = (out, h')
    ∧ Z.of_nat (length (load_nodes h' out)) = totalReplicas (load_nodes h nodes)
    ∧ view h' <$> load_nodes h' out
      = load_nodes h nodes ≫=
          (λ n, replicate (Z.to_nat (replicasOf n)) (view h n))
    ∧ Forall (λ n, config.Replicas n = None) (load_nodes h' out)
    ∧ NoDup (omap config.ExtraMounts (load_nodes h' out))
    ∧ (∀ p, p ∈ omap config.ExtraMounts (load_nodes h' out) →
         h !! p = None ∧ ∃ ms, h' !! p = Some (CMounts ms)).
Proof.
  intros Hwf Hpos.
  destruct (convertReplicas_unfold h nodes Hwf) as (out & ext & -> & Hexp).
  eexists _, _. split; [done|]. rewrite load_nodes_alloc.
  destruct Hexp as [Hv Hc Hw Hn Hf].
  assert (view ((h ++ ext) ++ [CNodes out]) <$> out
          = expanded h (load_nodes h nodes)) as Hviews.
  { rewrite <- Hv. apply Forall_fmap_ext_1.
    eapply Forall_impl; [exact Hw|]. intros n Hn'. by apply view_ext. }
  split_and!; [|done|done|done|].
  - apply (f_equal length) in Hviews.
    rewrite length_fmap, length_expanded in Hviews. rewrite Hviews.
    clear -Hpos. induction Hpos as [|n ns Hn _ IH]; [done|].
    rewrite fmap_cons. simpl sum_list. rewrite Nat2Z.inj_add, IH.
    simpl. lia.
  - intros p Hp. split.
    + apply Hf in Hp. apply lookup_ge_None. lia.
    + apply list_elem_of_omap in Hp as (n & Hn' & Hem).
      rewrite Forall_forall in Hw. apply Hw in Hn'.
      unfold wf_mounts in Hn'. rewrite Hem in Hn'. destruct Hn' as [ms Hms].
      exists ms. by apply lookup_app_l_Some.
Qed.
End ConvertReplicas.

(** ** The configuration is left as it was *)

Section Frame.
Context `{Constants} {Mount : Type}.
Implicit Types (h : heap Mount).

Lemma convertReplicas_grows h (nodes : slice) :
  ∃ ext out,
    convertReplicas h nodes
    = (Some (length (h ++ ext)), (h ++ ext) ++ [CNodes out]).
Proof.
  unfold convertReplicas.
  destruct (convertLoop_grows (load_nodes h nodes) [] h) as [ext Hext].
  destruct (convertLoop _ _ _) as [out h1]. simpl in Hext. subst h1.
  by exists ext, out.
Qed.

(** The store [nodesToCreate] leaves is the store it was given, followed
    by the arrays it made: the copies of the mounts and the array of the
    expanded nodes, the only one that is sorted. *)
Lemma nodesToCreate_grows h cfg clusterName :
  ∃ ext, (nodesToCreate h cfg clusterName).2 = h ++ ext.
Proof.
  unfold nodesToCreate.
  destruct (convertReplicas_grows h (config.Nodes cfg)) as (ext & out & ->).
  simpl. rewrite lookup_app_r, Nat.sub_diag by done. simpl.
  rewrite insert_app_r_alt, Nat.sub_diag by done. simpl.
  eexists. by rewrite <- app_assoc.
Qed.

(** C10: [nodesToCreate] does not change the configuration it is given.
    Every array of the store before the call is the same after it; so
    for a well-formed configuration the node list read through
    [cfg.Nodes] (entries, order, replica counts) and the mounts read
    through every entry are the same after the call as before. *)
Theorem nodesToCreate_preserves_config h cfg clusterName :
  (∀ p c, h !! p = Some c → (nodesToCreate h cfg clusterName).2 !! p = Some c)
  ∧ (wf_nodes h (config.Nodes cfg) →
     load_nodes (nodesToCreate h cfg clusterName).2 (config.Nodes cfg)
     = load_nodes h (config.Nodes cfg)
     ∧ Forall (λ n,
         load_mounts (nodesToCreate h cfg clusterName).2 (config.ExtraMounts n)
         = load_mounts h (config.ExtraMounts n))
         (load_nodes h (config.Nodes cfg))).
Proof.
  destruct (nodesToCreate_grows h cfg clusterName) as [ext ->].
  split; [intros p c Hp; by apply lookup_app_l_Some|].
  intros [Hptr Hwf]. split.
  - destruct (config.Nodes cfg) as [p|]; [|done].
    destruct Hptr as [ns Hp]. simpl.
    by rewrite (lookup_app_l_Some _ _ _ _ Hp), Hp.
  - eapply Forall_impl; [exact Hwf|]. intros n [Hm _].
    unfold wf_mounts, load_mounts in *.
    destruct (config.ExtraMounts n) as [p|]; [|done].
    destruct Hm as [ms Hp]. by rewrite (lookup_app_l_Some _ _ _ _ Hp), Hp.
Qed.
End Frame.

(** ** Node names *)

Lemma string_app_cons (c : ascii) (s t : string) :
  String c s +:+ t = String c (s +:+ t).
Proof. reflexivity. Qed.

Lemma string_app_nil_l (t : string) : "" +:+ t = t.
Proof. reflexivity. Qed.

Lemma string_app_nil_r (s : string) : s +:+ "" = s.
Proof.
  induction s as [|c s IH]; [done|]. by rewrite string_app_cons, IH.
Qed.

Lemma string_app_assoc (s t u : string) : (s +:+ t) +:+ u = s +:+ t +:+ u.
Proof.
  induction s as [|c s IH]; [done|]. by rewrite !string_app_cons, IH.
Qed.

Lemma string_app_eq_split (a b c d : string) :
  a +:+ b = c +:+ d →
  ∃ t, (a = c +:+ t ∧ d = t +:+ b) ∨ (c = a +:+ t ∧ b = t +:+ d).
Proof.
  revert c. induction a as [|x a IH]; intros c Heq.
  { exists c. right. by rewrite !string_app_nil_l in *. }
  destruct c as [|y c].
  { exists (String x a). left. by rewrite !string_app_nil_l in *. }
  rewrite !string_app_cons in Heq. injection Heq as -> Heq. destruct (IH c Heq) as [t [[-> ->]|[-> ->]]].
  - exists t. by left.
  - exists t. by right.
Qed.

Lemma all_digits_app (s t : string) :
  all_digits (s +:+ t) = all_digits s && all_digits t.
Proof.
  induction s as [|c s IH]; [done|].
  rewrite string_app_cons. simpl. by rewrite IH, andb_assoc.
Qed.

Lemma is_digit_pretty_N_char (x : N) : is_digit (pretty_N_char x) = true.
Proof. unfold pretty_N_char. by repeat case_match. Qed.

Lemma pretty_N_go_digits (x : N) (s : string) :
  all_digits s = true → all_digits (pretty_N_go x s) = true.
Proof.
  revert s. induction (N.lt_wf_0 x) as [x _ IH]; intros s Hs.
  destruct (decide (x = 0)%N) as [->|Hx]; [by rewrite pretty_N_go_0|].
  rewrite pretty_N_go_step by lia. apply IH.
  - apply N.div_lt; lia.
  - simpl. by rewrite is_digit_pretty_N_char, Hs.
Qed.

Lemma pretty_N_go_nonempty (x : N) (s : string) :
  s ≠ "" → pretty_N_go x s ≠ "".
Proof.
  revert s. induction (N.lt_wf_0 x) as [x _ IH]; intros s Hs.
  destruct (decide (x = 0)%N) as [->|Hx]; [by rewrite pretty_N_go_0|].
  rewrite pretty_N_go_step by lia. apply IH; [apply N.div_lt; lia|done].
Qed.

(** [fmt.Sprintf("%d", k)] of a positive [k]: decimal digits, at least one. *)
Lemma pretty_pos_digits (k : Z) :
  (0 < k)%Z → all_digits (pretty k) = true ∧ pretty k ≠ "".
Proof.
  destruct k as [|p|p]; [lia| |lia]. intros _.
  unfold pretty, pretty_Z, pretty, pretty_positive, pretty, pretty_N.
  case_decide; [done|]. split.
  - by apply pretty_N_go_digits.
  - rewrite pretty_N_go_step by lia. by apply pretty_N_go_nonempty.
Qed.

Lemma suffixOf_digits (k : Z) : (1 ≤ k)%Z → all_digits (suffixOf k) = true.
Proof.
  intros Hk. unfold suffixOf. case_decide; [done|].
  apply pretty_pos_digits. lia.
Qed.

Lemma suffixOf_inj (k1 k2 : Z) :
  (1 ≤ k1)%Z → (1 ≤ k2)%Z → suffixOf k1 = suffixOf k2 → k1 = k2.
Proof.
  unfold suffixOf. intros H1 H2 Heq. repeat case_decide; subst; try done.
  - symmetry in Heq. by apply pretty_pos_digits in Heq; [|lia].
  - by apply pretty_pos_digits in Heq; [|lia].
  - by apply (inj pretty) in Heq.
Qed.

(** Names are read back without ambiguity. *)
Lemma name_inj (c r1 r2 s1 s2 : string) :
  (∀ t, t ≠ "" → all_digits t = true → r2 ≠ r1 +:+ t ∧ r1 ≠ r2 +:+ t) →
  all_digits s1 = true → all_digits s2 = true →
  c +:+ "-" +:+ r1 +:+ s1 = c +:+ "-" +:+ r2 +:+ s2 →
  r1 = r2 ∧ s1 = s2.
Proof.
  intros Hroles Hs1 Hs2 Heq.
  apply (inj (String.app c)) in Heq. apply (inj (String.app "-")) in Heq.
  destruct (string_app_eq_split _ _ _ _ Heq) as [t [[-> ->]|[-> ->]]].
  - destruct (decide (t = "")) as [->|Ht].
    { by rewrite string_app_nil_r. }
    rewrite all_digits_app in Hs2. apply andb_true_iff in Hs2 as [Hdt _].
    by destruct (Hroles t Ht Hdt) as [_ []].
  - destruct (decide (t = "")) as [->|Ht].
    { by rewrite string_app_nil_r. }
    rewrite all_digits_app in Hs1. apply andb_true_iff in Hs1 as [Hdt _].
    by destruct (Hroles t Ht Hdt) as [[] _].
Qed.

(** A call of the namer gives the role its next count and the name
    made of that count. *)
Lemma callNamer_spec (c role : string) (m : gmap string Z) :
  (∀ r v, m !! r = Some v → (1 ≤ v)%Z) →
  ∃ k, callNamer (mkNamer c m) role
       = (c +:+ "-" +:+ role +:+ suffixOf k, mkNamer c (<[role := k]> m))
       ∧ (1 ≤ k)%Z
       ∧ (∀ v, m !! role = Some v → (v < k)%Z).
Proof.
  intros Hm. unfold callNamer. simpl.
  destruct (m !! role) as [v|] eqn:Hv.
  - apply Hm in Hv as Hge. exists (1 + v)%Z. split_and!; [|lia|].
    + unfold suffixOf. by case_decide; [lia|].
    + intros ? [= <-]. lia.
  - exists 1%Z. by split_and!.
Qed.

Lemma specLoop_names_distinct (c : string) (roles : list string)
    (configNodes : list config.Node) (m : gmap string Z)
    (acc : list nodeSpec) :
  roles_unambiguous roles →
  Forall (λ n, config.Role n ∈ roles) configNodes →
  naming c roles m acc →
  NoDup (Name <$> specLoop configNodes (mkNamer c m) acc).
Proof.
  intros Hroles Hin. revert m acc.
  induction Hin as [|n rest Hn _ IH]; intros m acc [Hcnt Hnames Hnd]; [done|].
  simpl specLoop.
  destruct (callNamer_spec c (config.Role n) m Hcnt) as (k & -> & Hk & Hnew).
  apply IH. split.
  - intros r v. destruct (decide (config.Role n = r)) as [<-|Hne].
    + rewrite lookup_insert_eq. by intros [= <-].
    + rewrite lookup_insert_ne by done. apply Hcnt.
  - intros d. rewrite elem_of_app, list_elem_of_singleton.
    intros [Hd| ->]; simpl.
    + destruct (Hnames d Hd) as (Hr & k' & v & Hv & Hk' & Hname).
      split; [done|]. destruct (decide (config.Role n = Role d)) as [Heq|Hne].
      * exists k', k. rewrite Heq in Hnew. specialize (Hnew v Hv).
        rewrite Heq, lookup_insert_eq. split_and!; [done|lia|lia|done].
      * exists k', v. by rewrite lookup_insert_ne.
    + split; [done|]. exists k, k. rewrite lookup_insert_eq.
      split_and!; [done|lia|lia|done].
  - rewrite fmap_app. apply NoDup_app. split_and!; [done| |apply NoDup_singleton].
    intros name Hold. simpl. rewrite list_elem_of_singleton. intros ->.
    apply list_elem_of_fmap in Hold as (d & Hname & Hd).
    destruct (Hnames d Hd) as (Hr & k' & v & Hv & Hk' & Hname').
    rewrite Hname' in Hname.
    apply name_inj in Hname as [Hrole Hsuf].
    + apply suffixOf_inj in Hsuf; [|done|lia]. subst k'.
      rewrite Hrole in Hnew. specialize (Hnew v Hv). lia.
    + intros t Ht Hdt. split; by apply Hroles.
    + by apply suffixOf_digits.
    + apply suffixOf_digits. lia.
Qed.

Section Names.
Context `{Constants} {Mount : Type}.
Implicit Types (h : heap Mount).

Lemma replicaLoop_roles fuel i replicas node (out : list config.Node) h :
  Forall (λ n, n ∈ out ∨ config.Role n = config.Role node)
    (replicaLoop fuel i replicas node out h).1.
Proof.
  revert i out h. induction fuel as [|fuel IH]; intros i out h; simpl.
  { apply Forall_forall. by left. }
  case_bool_decide; [|apply Forall_forall; by left].
  assert (config.Role (DeepCopy h node).1 = config.Role node) as Hrole.
  { unfold DeepCopy. by destruct (config.ExtraMounts node). }
  destruct (DeepCopy h node) as [outNode h1]. simpl in Hrole.
  eapply Forall_impl; [apply IH|]. simpl. intros n [Hn|Hn]; [|by right].
  apply elem_of_app in Hn as [Hn|Hn]; [by left|].
  apply list_elem_of_singleton in Hn as ->. by right.
Qed.

Lemma convertLoop_roles (nodes out : list config.Node) h :
  Forall (λ n, n ∈ out ∨ config.Role n ∈ config.Role <$> nodes)
    (convertLoop nodes out h).1.
Proof.
  revert out h. induction nodes as [|node rest IH]; intros out h; simpl.
  { apply Forall_forall. by left. }
  pose proof (replicaLoop_roles (Z.to_nat (replicasOf node)) 0
                (replicasOf node) node out h) as Hinner.
  destruct (replicaLoop _ _ _ _ _ _) as [out1 h1]. simpl in Hinner.
  eapply Forall_impl; [apply IH|]. simpl. intros n [Hn|Hn].
  - rewrite Forall_forall in Hinner. destruct (Hinner n Hn) as [?|Heq]; [|rewrite Heq].
    + by left.
    + right. apply elem_of_cons. by left.
  - right. apply elem_of_cons. by right.
Qed.

(** The nodes named by [nodesToCreate] have roles of the configuration. *)
Lemma nodesToCreate_unfold h cfg clusterName :
  ∃ configNodes : list config.Node,
    (nodesToCreate h cfg clusterName).1
    = specLoop configNodes (makeNodeNamer clusterName) []
    ∧ Forall (λ n, config.Role n
                   ∈ config.Role <$> load_nodes h (config.Nodes cfg))
        configNodes.
Proof.
  unfold nodesToCreate, convertReplicas.
  pose proof (convertLoop_roles (load_nodes h (config.Nodes cfg)) [] h) as Hr.
  destruct (convertLoop _ _ _) as [out h1]. simpl in Hr.
  exists (load_nodes
            (sortNodes (h1 ++ [CNodes out]) (Some (length h1)) defaultRoleOrder)
            (Some (length h1))).
  split; [done|]. rewrite load_nodes_sortNodes, load_nodes_alloc.
  rewrite sortedNodes_perm.
  eapply Forall_impl; [exact Hr|]. simpl. intros n [Hn|Hn]; [|done].
  by apply elem_of_nil in Hn.
Qed.

(** C8, as amended: the names [nodesToCreate] assigns are pairwise
    distinct when no role string of the configuration is another role
    string of the configuration followed by decimal digits. *)
Theorem node_names_distinct h cfg clusterName :
  roles_unambiguous (config.Role <$> load_nodes h (config.Nodes cfg)) →
  NoDup (Name <$> (nodesToCreate h cfg clusterName).1).
Proof.
  intros Hroles.
  destruct (nodesToCreate_unfold h cfg clusterName) as (ns & -> & Hns).
  eapply specLoop_names_distinct; [exact Hroles|exact Hns|].
  split.
  - intros r v. by rewrite lookup_empty.
  - intros d Hd. by apply elem_of_nil in Hd.
  - constructor.
Qed.
End Names.

(** ** Creation by role and the errors of a task *)

Lemma annotated_with_Contains (name : string) (e : error) :
  annotated_with name e → Contains (Error e) name = true.
Proof.
  intros (pre & post & ->). induction pre as [|c pre IH].
  - rewrite string_app_nil_l.
    assert (has_prefix name (name +:+ post) = true) as Hp.
    { induction name as [|a name IHn]; [done|].
      rewrite string_app_cons. simpl. by rewrite decide_True. }
    destruct (name +:+ post); simpl in *; by rewrite Hp.
  - rewrite string_app_cons. simpl. rewrite IH. apply orb_true_r.
Qed.

Section TaskFacts.
Context {consts : Constants} {api : NodesAPI}.

Lemma role_values_ne :
  ExternalLoadBalancerNodeRoleValue ≠ ExternalEtcdNodeRoleValue
  ∧ ExternalLoadBalancerNodeRoleValue ≠ ControlPlaneNodeRoleValue
  ∧ ExternalLoadBalancerNodeRoleValue ≠ WorkerNodeRoleValue
  ∧ ExternalEtcdNodeRoleValue ≠ ControlPlaneNodeRoleValue
  ∧ ExternalEtcdNodeRoleValue ≠ WorkerNodeRoleValue
  ∧ ControlPlaneNodeRoleValue ≠ WorkerNodeRoleValue.
Proof.
  pose proof role_values_distinct as Hd.
  apply NoDup_cons in Hd as [Ha Hd]. apply NoDup_cons in Hd as [Hb Hd].
  apply NoDup_cons in Hd as [Hc _].
  rewrite !not_elem_of_cons in Ha. rewrite !not_elem_of_cons in Hb.
  rewrite !not_elem_of_cons in Hc.
  destruct Ha as (? & ? & ? & _), Hb as (? & ? & _), Hc as (? & _).
  by split_and!.
Qed.

(** C2, as amended: [Create] dispatches on three roles, each to its
    creation operation with the name, image and label (and the mounts
    for the last two).  For every other role, [ExternalEtcd] among them,
    it returns the unknown-role error and calls no operation: the world
    is the one it was given, whatever the operations do. *)
Theorem Create_dispatch (d : nodeSpec) (label : string) (w : World) :
  (Role d = ExternalLoadBalancerNodeRoleValue →
     Create d label w
     = CreateExternalLoadBalancerNode (Name d) (Image d) label w)
  ∧ (Role d = ControlPlaneNodeRoleValue →
     Create d label w
     = CreateControlPlaneNode (Name d) (Image d) label (ExtraMounts d) w)
  ∧ (Role d = WorkerNodeRoleValue →
     Create d label w
     = CreateWorkerNode (Name d) (Image d) label (ExtraMounts d) w)
  ∧ (Role d ∉ [ExternalLoadBalancerNodeRoleValue; ControlPlaneNodeRoleValue;
               WorkerNodeRoleValue] →
     Create d label w = (inr (Errorf ("unknown node role: " +:+ Role d)), w))
  ∧ (Role d = ExternalEtcdNodeRoleValue →
     Create d label w = (inr (Errorf ("unknown node role: " +:+ Role d)), w)).
Proof.
  destruct role_values_ne as (Hab & Hac & Had & Hbc & Hbd & Hcd).
  unfold Create. split_and!; intros Hrole.
  - by rewrite decide_True.
  - rewrite decide_False by congruence. by rewrite decide_True.
  - rewrite !decide_False by congruence. by rewrite decide_True.
  - rewrite !not_elem_of_cons in Hrole. destruct Hrole as (? & ? & ? & _).
    by rewrite !decide_False.
  - by rewrite !decide_False by congruence.
Qed.

(** Going through the cases of an assumption made of disjunctions,
    conjunctions and equations between results. *)
Ltac by_cases_of H :=
  decompose [or and ex] H; simplify_eq; (done || congruence).

Lemma fixupNode_error (node : nodesNode) (w0 w' : World) (err : error) :
  fixupNode node w0 = (Some err, w') ↔ fixup_error node w0 err w'.
Proof.
  unfold fixupNode, fixup_error, proxy_done.
  destruct (FixMounts node w0) as [[e1|] w1].
  { split; [intros [= -> ->]; by left|]. intros Hfe. by_cases_of Hfe. }
  destruct (NeedProxy w1) eqn:Hnp.
  - destruct (SetProxy node w1) as [[e2|] w2] eqn:Hsp.
    { split.
      - intros [= <- <-]. right. left. by exists w1, e2.
      - intros Hfe. by_cases_of Hfe. }
    destruct (SignalStart node w2) as [[e3|] w3] eqn:Hss.
    { split.
      - intros [= -> ->]. right. right. left. exists w1, w2.
        split_and!; [done| |done]. by right.
      - intros Hfe. by_cases_of Hfe. }
    destruct (WaitForDocker node (timeNow w3 + Second * 30)%Z w3)
      as [[|] w4] eqn:Hwd.
    { split; [done|]. intros Hfe. by_cases_of Hfe. }
    split.
    + intros [= <- <-]. do 3 right. exists w1, w2, w3.
      split_and!; try done. by right.
    + intros Hfe. by_cases_of Hfe.
  - destruct (SignalStart node w1) as [[e3|] w3] eqn:Hss.
    { split.
      - intros [= -> ->]. right. right. left. exists w1, w1.
        split_and!; [done| |done]. by left.
      - intros Hfe. by_cases_of Hfe. }
    destruct (WaitForDocker node (timeNow w3 + Second * 30)%Z w3)
      as [[|] w4] eqn:Hwd.
    { split; [done|]. intros Hfe. by_cases_of Hfe. }
    split.
    + intros [= <- <-]. do 3 right. exists w1, w1, w3.
      split_and!; try done. by left.
    + intros Hfe. by_cases_of Hfe.
Qed.

(** C5, as amended: the errors a task delivers, exactly.  The goroutine
    of a node spec ends with an error in the cases of [task_error], and
    in each of them with the error given there: the unknown-role error
    of [Create], which carries the role; the error of the creation
    operation, of [FixMounts] or of [SignalStart], as the operation
    returned it; the error of [SetProxy] wrapped in a message with the
    node's name; the timeout of [WaitForDocker], with the node's name.
    The last two are annotated with the name of the node. *)
Theorem task_error_origin (d : nodeSpec) (label : string) (w w' : World)
    (err : error) :
  (taskBody d label w = (inr err, w') ↔ task_error d label w err w')
  ∧ (∀ node cause,
       annotated_with (nodeName node)
         (Wrapf cause ("failed to set proxy for node " +:+ nodeName node)))
  ∧ (∀ node,
       annotated_with (nodeName node)
         (Errorf ("timed out waiting for docker to be ready on node "
                    +:+ nodeName node))).
Proof.
  split_and!.
  - destruct role_values_ne as (Hab & Hac & Had & Hbc & Hbd & Hcd).
    unfold taskBody, task_error.
    destruct (Create d label w) as [[node|e] w0] eqn:Hc.
    + (* the node is created: the error is the error of the fixup *)
      assert (∀ P Q R S : Prop,
                ¬ P → ¬ Q → ¬ R → ¬ S → ∀ T : Prop, (P ∨ Q ∨ R ∨ S ∨ T) ↔ T)
        as Hlast by tauto.
      rewrite Hlast.
      * destruct (fixupNode node w0) as [[e|] w1] eqn:Hfix.
        -- split.
           ++ intros [= <- <-]. exists node, w0. split; [done|].
              by apply fixupNode_error.
           ++ intros (node' & w0' & Heq & Hfe). simplify_eq.
              apply fixupNode_error in Hfe. congruence.
        -- split; [done|]. intros (node' & w0' & Heq & Hfe). simplify_eq.
           apply fixupNode_error in Hfe. congruence.
      * intros (Hrole & _). rewrite !not_elem_of_cons in Hrole.
        destruct Hrole as (? & ? & ? & _). unfold Create in Hc.
        by rewrite !decide_False in Hc.
      * intros [Hrole Hop]. unfold Create in Hc.
        rewrite decide_True in Hc by done. congruence.
      * intros [Hrole Hop]. unfold Create in Hc.
        rewrite decide_False, decide_True in Hc by congruence. congruence.
      * intros [Hrole Hop]. unfold Create in Hc.
        rewrite !decide_False, decide_True in Hc by congruence. congruence.
    + (* the creation fails, or the role is not dispatched *)
      unfold Create in Hc. split.
      * intros [= <- <-]. repeat case_decide.
        -- right. left. by split.
        -- right. right. left. by split.
        -- do 3 right. left. by split.
        -- left. injection Hc as <- <-. split_and!; [|done..].
           rewrite !not_elem_of_cons. split_and!; try done.
           apply not_elem_of_nil.
      * intros [(Hrole & -> & ->)|[[Hrole Hop]|[[Hrole Hop]|[[Hrole Hop]|
                 (node & w1 & Hn & _)]]]].
        -- rewrite !not_elem_of_cons in Hrole.
           destruct Hrole as (? & ? & ? & _).
           rewrite !decide_False in Hc by done. by injection Hc as <- <-.
        -- rewrite decide_True in Hc by done. congruence.
        -- rewrite decide_False, decide_True in Hc by congruence. congruence.
        -- rewrite !decide_False, decide_True in Hc by congruence.
           congruence.
        -- discriminate.
  - intros node cause.
    exists "failed to set proxy for node ", (": " +:+ Error cause).
    simpl. by rewrite string_app_assoc.
  - intros node.
    exists "timed out waiting for docker to be ready on node ", "".
    simpl. by rewrite string_app_nil_r.
Qed.
End TaskFacts.

(** ** The orchestrator *)

Section OrchestratorFacts.
Context {consts : Constants} {api : NodesAPI}.
Implicit Types (s : state) (a : action) (t : task) (l : list task).

Lemma sum_insert (f : task → nat) l i t t' :
  l !! i = Some t →
  sum_list_with f (<[i := t']> l) + f t = sum_list_with f l + f t'.
Proof.
  revert i. induction l as [|x l IH]; intros [|i] Hi; simplify_eq/=; [lia|].
  specialize (IH i Hi). lia.
Qed.

Lemma delivered_le l : sum_list_with delivered l ≤ length l.
Proof. induction l as [|[] l IH]; simpl; lia. Qed.

Lemma delivered_lt l i t :
  l !! i = Some t → delivered t = 0 → sum_list_with delivered l < length l.
Proof.
  revert i. induction l as [|x l IH]; intros [|i] Hi Ht; simplify_eq/=.
  - pose proof (delivered_le l). lia.
  - specialize (IH i Hi Ht). destruct x; simpl; lia.
Qed.



Lemma live_started (desiredNodes : list nodeSpec) (label : string) (w : World) :
  0 < length desiredNodes → live (started desiredNodes label w).
Proof.
  intros Hpos. unfold live, started. simpl. split; simpl; try done.
  - by rewrite length_fmap.
  - apply Forall_fmap, Forall_forall. done.
  - induction desiredNodes as [|d l IH]; simpl in *; [done|].
    destruct l; [done|]. apply IH. simpl. lia.
Qed.




Lemma step_live a s s' : live s → step a s = Some s' → live s'.
Proof.
  unfold live, step. destruct a as [i|].
  - destruct (tasks s !! i) as [[d|node|err| |]|] eqn:Hi; try done.
    + destruct (taskBody _ _ _) as [r w]. intros Hs [= <-]. simpl.
      destruct (main s) as [allNodes|]; [|done].
      destruct Hs as [? ? ? Hlen Hnp Hcount ?]. split; simpl; try done.
      * by rewrite length_insert.
      * apply Forall_insert; [done|]. by destruct r.
      * pose proof (sum_insert delivered _ _ _
          (match r with inl node => SendNode node | inr err => SendErr err end)
          Hi) as Hsum.
        destruct r; simpl in Hsum; lia.
    + destruct (nodeChanClosed s) eqn:Hclosed.
      { intros Hs [= <-]. simpl. destruct (main s); [|done].
        destruct Hs. congruence. }
      case_decide as Hroom; [|done]. intros Hs [= <-]. simpl.
      destruct (main s) as [allNodes|]; [|done].
      destruct Hs as [? ? ? Hlen Hnp Hcount ?]. split; simpl; try done.
      * by rewrite length_insert.
      * by apply Forall_insert.
      * pose proof (sum_insert delivered _ _ _ Finished Hi) as Hsum.
        rewrite length_app. simpl in *. lia.
    + destruct (errChanClosed s) eqn:Hclosed.
      { intros Hs [= <-]. simpl. destruct (main s); [|done].
        destruct Hs. congruence. }
      destruct (main s); [|done]. by intros _ [= <-].
  - destruct (main s) as [allNodes|]; [|done].
    destruct (nodeChan s) as [|node rest] eqn:Hbuf; [done|].
    intros Hs. case_decide as Hlen; intros [= <-]; simpl; [done|].
    destruct Hs as [? ? ? ? ? Hcount ?]. rewrite Hbuf in Hcount.
    rewrite length_app in Hlen. simpl in *.
    split; simpl; try done; rewrite length_app; simpl; lia.
Qed.

Lemma run_live (schedule : list action) s s' :
  live s → run schedule s = Some s' → live s'.
Proof.
  revert s. induction schedule as [|a schedule IH]; intros s Hs; simpl.
  { by intros [= <-]. }
  destruct (step a s) as [s1|] eqn:Hstep; [|done].
  apply IH. by eapply step_live.
Qed.


(** And every move that is possible does so: a run cannot go on for
    ever without the collector returning. *)
Lemma step_decreases a s s' :
  live s → ¬ has_returned s → step a s = Some s' →
  has_returned s' ∨ measure s' < measure s.
Proof.
  unfold live, has_returned, measure, collected, step.
  destruct (main s) as [allNodes|] eqn:Hmain; [|tauto].
  intros [Hno Heo Hcap Hlen Hnp Hcount Hmore] _. destruct a as [i|].
  - destruct (tasks s !! i) as [[d|node|err| |]|] eqn:Hi; try done.
    + destruct (taskBody _ _ _) as [r w]. intros [= <-]. right. simpl.
      rewrite ?Hmain.
      pose proof (sum_insert weight _ _ _
        (match r with inl node => SendNode node | inr err => SendErr err end)
        Hi) as Hsum.
      destruct r; simpl in Hsum; lia.
    + rewrite Hno. case_decide; [|done]. intros [= <-]. right. simpl.
      rewrite ?Hmain.
      pose proof (sum_insert weight _ _ _ Finished Hi) as Hsum.
      simpl in Hsum. lia.
    + rewrite Heo, ?Hmain. intros [= <-]. by left.
  - rewrite ?Hmain. destruct (nodeChan s) as [|node rest]; [done|].
    case_decide as Hfull; intros [= <-]; simpl; [by left|].
    right. rewrite length_app. simpl. lia.
Qed.



(** C3, on the code: with no node to create, no goroutine is started,
    and the collector stays at its [select] for ever: no move is
    possible, it has not returned and never returns. *)
Theorem no_nodes_never_returns {Mount} (h : heap Mount)
    (clusterName label : string) (w : World) (schedule : list action) :
  tasks (createNodeContainers h (config.mkConfig None) clusterName label w)
  = []
  ∧ (∀ a, step a (createNodeContainers h (config.mkConfig None)
                    clusterName label w) = None)
  ∧ match run schedule (createNodeContainers h (config.mkConfig None)
                          clusterName label w) with
    | Some s => main s = Collecting []
    | None => True
    end.
Proof.
  assert (createNodeContainers h (config.mkConfig None) clusterName label w
          = started [] label w) as ->.
  { unfold createNodeContainers, nodesToCreate, convertReplicas. simpl.
    rewrite lookup_app_r, Nat.sub_diag by done. simpl.
    rewrite insert_app_r_alt, Nat.sub_diag by done. simpl.
    by rewrite lookup_app_r, Nat.sub_diag. }
  split; [done|].
  assert (∀ a, step a (started [] label w) = None) as Hstuck.
  { by intros [i|]. }
  split; [done|].
  destruct schedule as [|a schedule]; simpl; [done|]. by rewrite Hstuck.
Qed.
(** Once the collector has returned both channels are closed, so a
    goroutine that has not sent yet can only panic. *)
Lemma step_closed a s s' :
  (has_returned s → nodeChanClosed s = true ∧ errChanClosed s = true) →
  step a s = Some s' →
  has_returned s' → nodeChanClosed s' = true ∧ errChanClosed s' = true.
Proof.
  unfold has_returned, step. intros Hs.
  destruct a as [i|].
  - destruct (tasks s !! i) as [[d|node|err| |]|]; try done.
    + destruct (taskBody _ _ _) as [r w]. intros [= <-]. exact Hs.
    + destruct (nodeChanClosed s) eqn:Hc.
      { intros [= <-]. simpl. intros Hr. destruct (Hs Hr). by split. }
      case_decide; [|done]. intros [= <-]. simpl.
      intros Hr. destruct (Hs Hr). split; congruence.
    + destruct (errChanClosed s) eqn:Hc.
      { intros [= <-]. simpl. intros Hr. destruct (Hs Hr). by split. }
      destruct (main s); [|done]. by intros [= <-].
  - destruct (main s) as [allNodes|]; [|done].
    destruct (nodeChan s) as [|node rest]; [done|].
    case_decide; intros [= <-]; simpl; [done|tauto].
Qed.

Lemma sends_after_return_panic (desiredNodes : list nodeSpec)
    (label : string) (w : World) (schedule : list action) s i t :
  run schedule (started desiredNodes label w) = Some s →
  has_returned s → tasks s !! i = Some t →
  (∃ node, t = SendNode node) ∨ (∃ err, t = SendErr err) →
  step (Go i) s = Some (set_task s i Panicked).
Proof.
  intros Hrun Hret Hi Ht.
  assert (nodeChanClosed s = true ∧ errChanClosed s = true) as [Hn He].
  { assert (∀ s0, (has_returned s0 →
               nodeChanClosed s0 = true ∧ errChanClosed s0 = true) →
             run schedule s0 = Some s →
             has_returned s →
             nodeChanClosed s = true ∧ errChanClosed s = true) as Hgen.
    { clear. induction schedule as [|a schedule IH]; intros s0 H0; simpl.
      - by intros [= <-].
      - destruct (step a s0) as [s1|] eqn:Hstep; [|done].
        apply IH. by eapply step_closed. }
    eapply Hgen; [|exact Hrun|exact Hret]. by intros []. }
  unfold step. rewrite Hi. destruct Ht as [[node ->]|[err ->]].
  - by rewrite Hn.
  - by rewrite He.
Qed.
End OrchestratorFacts.

(** Roles that do not end in a digit are unambiguous; the four roles of
    kind are such. *)
Lemma last_digit_app (r t : string) :
  t ≠ "" → last_digit (r +:+ t) = last_digit t.
Proof.
  intros Ht. induction r as [|c r IH]; [done|].
  rewrite string_app_cons. simpl. rewrite IH.
  destruct (r +:+ t) eqn:Hrt; [|done].
  destruct r; [by rewrite string_app_nil_l in Hrt|done].
Qed.

Lemma all_digits_last_digit (t : string) :
  t ≠ "" → all_digits t = true → last_digit t = true.
Proof.
  induction t as [|c t IH]; [done|]. intros _. simpl.
  intros [Hc Ht]%andb_true_iff. destruct t; [done|]. by apply IH.
Qed.

Lemma no_trailing_digit_unambiguous (roles : list string) :
  Forall (λ r, last_digit r = false) roles → roles_unambiguous roles.
Proof.
  intros Hroles r1 r2 t _ Hr2 Ht Hdt ->.
  rewrite Forall_forall in Hroles. apply Hroles in Hr2.
  rewrite last_digit_app in Hr2 by done.
  by rewrite all_digits_last_digit in Hr2.
Qed.

(** * Further properties

    What the rest of the file shows, function by function. *)

(** ** [makeRoleToOrder] and [sortNodes] *)

Lemma fillOrderMap_app (l1 l2 : list string) (i : Z) (m : gmap string Z) :
  fillOrderMap i (l1 ++ l2) m
  = fillOrderMap (i + Z.of_nat (length l1)) l2 (fillOrderMap i l1 m).
Proof.
  revert i m. induction l1 as [|r l1 IH]; intros i m; simpl.
  - f_equal. lia.
  - rewrite IH. f_equal. lia.
Qed.

(** X3: the rank of a listed role is the index of its last occurrence
    in the role order (later assignments to [orderMap] overwrite
    earlier ones); in a list without repetition, its index. *)
Theorem makeRoleToOrder_last_occurrence (before after : list string)
    (role : string) :
  role ∉ after →
  makeRoleToOrder (before ++ role :: after) role
  = Z.of_nat (length before).
Proof.
  intros Hnot. unfold makeRoleToOrder. rewrite fillOrderMap_app. simpl.
  rewrite fillOrderMap_absent by done. rewrite lookup_insert_eq. lia.
Qed.

Lemma filter_filter_sub {A} (P Q : A → Prop) `{!∀ x, Decision (P x)}
    `{!∀ x, Decision (Q x)} (l : list A) :
  (∀ x, P x → Q x) → filter P (filter Q l) = filter P l.
Proof.
  intros Hsub. induction l as [|x l IH]; [done|].
  rewrite !filter_cons. destruct (decide (Q x)) as [Hq|Hq].
  - rewrite filter_cons. destruct (decide (P x)); by rewrite IH.
  - rewrite IH. destruct (decide (P x)) as [Hp|]; [|done].
    destruct Hq. by apply Hsub.
Qed.

Lemma sortNodes_frame {Mount} (h : heap Mount) (nodes : slice)
    (roleOrder : list string) (p : loc) :
  nodes ≠ Some p → sortNodes h nodes roleOrder !! p = h !! p.
Proof.
  intros Hp. unfold sortNodes. destruct nodes as [q|]; [|done].
  destruct (h !! q) as [[ms|ns]|]; try done.
  apply list_lookup_insert_ne. congruence.
Qed.

(** X1: [sortNodes] sorts in place.  Afterwards the nodes of the slice
    are in non-decreasing rank, they are the nodes that were there, and
    no other array of the store has changed. *)
Theorem sortNodes_sorts {Mount} (h : heap Mount) (nodes : slice)
    (roleOrder : list string) :
  StronglySorted
    (λ a b, (makeRoleToOrder roleOrder (config.Role a)
             ≤ makeRoleToOrder roleOrder (config.Role b))%Z)
    (load_nodes (sortNodes h nodes roleOrder) nodes)
  ∧ load_nodes (sortNodes h nodes roleOrder) nodes ≡ₚ load_nodes h nodes
  ∧ length (sortNodes h nodes roleOrder) = length h
  ∧ (∀ p, nodes ≠ Some p → sortNodes h nodes roleOrder !! p = h !! p).
Proof.
  rewrite load_nodes_sortNodes. split_and!.
  - apply (SliceStable_sorted
             (λ n, makeRoleToOrder roleOrder (config.Role n))).
  - apply sortedNodes_perm.
  - unfold sortNodes. destruct nodes as [q|]; [|done].
    destruct (h !! q) as [[ms|ns]|]; try done. apply length_insert.
  - intros p. apply sortNodes_frame.
Qed.

(** X2: the sort of [sortNodes] is stable.  The nodes of one rank, and
    so the nodes of one role, are in the order they had before. *)
Theorem sortNodes_stable {Mount} (h : heap Mount) (nodes : slice)
    (roleOrder : list string) :
  (∀ rank : Z,
     filter (λ n, makeRoleToOrder roleOrder (config.Role n) = rank)
       (load_nodes (sortNodes h nodes roleOrder) nodes)
     = filter (λ n, makeRoleToOrder roleOrder (config.Role n) = rank)
         (load_nodes h nodes))
  ∧ (∀ role : string,
       filter (λ n, config.Role n = role)
         (load_nodes (sortNodes h nodes roleOrder) nodes)
       = filter (λ n, config.Role n = role) (load_nodes h nodes)).
Proof.
  rewrite load_nodes_sortNodes.
  assert (∀ rank : Z,
     filter (λ n, makeRoleToOrder roleOrder (config.Role n) = rank)
       (sortedNodes (load_nodes h nodes) roleOrder)
     = filter (λ n, makeRoleToOrder roleOrder (config.Role n) = rank)
         (load_nodes h nodes)) as Hrank.
  { intros rank.
    apply (SliceStable_stable
             (λ n, makeRoleToOrder roleOrder (config.Role n))). }
  split; [exact Hrank|]. intros role.
  rewrite <- (filter_filter_sub (λ n, config.Role n = role)
                (λ n, makeRoleToOrder roleOrder (config.Role n)
                      = makeRoleToOrder roleOrder role))
    by (by intros n ->).
  rewrite Hrank. apply filter_filter_sub. by intros n ->.
Qed.

(** ** [makeNodeNamer] and [nodesToCreate] *)

Lemma occurrences_app (role : string) (l1 l2 : list nodeSpec) :
  occurrences role (l1 ++ l2) = occurrences role l1 + occurrences role l2.
Proof. unfold occurrences. by rewrite filter_app, length_app. Qed.

Lemma occurrences_singleton (role : string) (d : nodeSpec) :
  occurrences role [d] = if decide (Role d = role) then 1 else 0.
Proof.
  unfold occurrences. rewrite filter_cons. by destruct (decide (Role d = role)).
Qed.

Lemma specLoop_fields (configNodes : list config.Node) (nameNode : NodeNamer)
    (acc : list nodeSpec) :
  spec_fields <$> specLoop configNodes nameNode acc
  = (spec_fields <$> acc) ++ (node_fields <$> configNodes).
Proof.
  revert nameNode acc.
  induction configNodes as [|n rest IH]; intros nm acc; simpl.
  { by rewrite app_nil_r. }
  destruct (callNamer nm (config.Role n)) as [name nm'].
  rewrite IH, fmap_app. simpl. by rewrite <- app_assoc.
Qed.

(** The namer counts the calls made for each role, and the name of a
    node says how many nodes of its role have been named up to it. *)
Lemma callNamer_count (c role : string) (m : gmap string Z)
    (acc : list nodeSpec) :
  counts m acc →
  callNamer (mkNamer c m) role
  = (c +:+ "-" +:+ role
       +:+ suffixOf (Z.of_nat (occurrences role acc + 1)),
     mkNamer c (<[role := Z.of_nat (occurrences role acc + 1)]> m)).
Proof.
  intros Hm. unfold callNamer. simpl. rewrite (Hm role).
  case_decide as Hocc.
  - by rewrite Hocc.
  - replace (1 + Z.of_nat (occurrences role acc))%Z
      with (Z.of_nat (occurrences role acc + 1)) by lia.
    unfold suffixOf. by rewrite decide_False by lia.
Qed.

Lemma counts_step (role name image : string) (mounts : slice)
    (m : gmap string Z) (acc : list nodeSpec) :
  counts m acc →
  counts (<[role := Z.of_nat (occurrences role acc + 1)]> m)
    (acc ++ [mkSpec name role image mounts]).
Proof.
  intros Hm r. rewrite occurrences_app, occurrences_singleton. simpl.
  destruct (decide (role = r)) as [<-|Hne].
  - rewrite lookup_insert_eq. rewrite decide_False by lia. done.
  - rewrite lookup_insert_ne by done. rewrite !Nat.add_0_r. apply Hm.
Qed.

Lemma specLoop_names (c : string) (configNodes : list config.Node)
    (m : gmap string Z) (acc : list nodeSpec) :
  counts m acc →
  (∀ i d, acc !! i = Some d →
     Name d = c +:+ "-" +:+ Role d
              +:+ suffixOf (Z.of_nat (occurrences (Role d) (take (S i) acc)))) →
  ∀ i d, specLoop configNodes (mkNamer c m) acc !! i = Some d →
    Name d = c +:+ "-" +:+ Role d
             +:+ suffixOf (Z.of_nat
                   (occurrences (Role d)
                      (take (S i) (specLoop configNodes (mkNamer c m) acc)))).
Proof.
  revert m acc. induction configNodes as [|n rest IH]; intros m acc Hm Hacc.
  { exact Hacc. }
  simpl specLoop. rewrite (callNamer_count _ _ _ _ Hm).
  apply IH; [by apply counts_step|].
  intros i d Hi. destruct (decide (i < length acc)) as [Hlt|Hge].
  - rewrite lookup_app_l in Hi by done.
    rewrite take_app_le by lia. by apply Hacc.
  - rewrite lookup_app_r in Hi by lia.
    apply list_lookup_singleton_Some in Hi as [Hi <-]. simpl.
    rewrite take_ge by (rewrite length_app; simpl; lia).
    rewrite occurrences_app, occurrences_singleton. simpl.
    by rewrite decide_True.
Qed.

Section NodesToCreateFacts.
Context {consts : Constants} {Mount : Type}.
Implicit Types (h : heap Mount) (cfg : config.Config).

(** X4: node names.  The name of a node spec is the cluster name, a
    dash and the role for the first spec of its role, and the same
    followed by [k] for the [k]-th spec of its role, [k] from 2 on,
    counted in the order of the returned list (the order after
    sorting). *)
Theorem nodesToCreate_names h cfg (clusterName : string) (i : nat)
    (d : nodeSpec) :
  (nodesToCreate h cfg clusterName).1 !! i = Some d →
  Name d
  = clusterName +:+ "-" +:+ Role d
    +:+ suffixOf (Z.of_nat
          (occurrences (Role d)
             (take (S i) (nodesToCreate h cfg clusterName).1))).
Proof.
  destruct (nodesToCreate_unfold h cfg clusterName) as (ns & -> & _).
  apply specLoop_names.
  - intros r. by rewrite lookup_empty.
  - by intros j d'.
Qed.

Lemma nodesToCreate_wf_unfold h cfg (clusterName : string) :
  wf_nodes h (config.Nodes cfg) →
  ∃ out ext,
    expansion h (expanded h (load_nodes h (config.Nodes cfg))) out ext
    ∧ nodesToCreate h cfg clusterName
      = (specLoop (sortedNodes out defaultRoleOrder)
           (makeNodeNamer clusterName) [],
         (h ++ ext) ++ [CNodes (sortedNodes out defaultRoleOrder)]).
Proof.
  intros Hwf. unfold nodesToCreate.
  destruct (convertReplicas_unfold h _ Hwf) as (out & ext & -> & Hexp).
  exists out, ext. split; [done|].
  rewrite (load_nodes_sortNodes ((h ++ ext) ++ [CNodes out])).
  rewrite load_nodes_alloc. f_equal.
  unfold sortNodes. rewrite lookup_app_r, Nat.sub_diag by done. simpl.
  by rewrite insert_app_r_alt, Nat.sub_diag by done.
Qed.

Lemma spec_view_fields h (d : nodeSpec) (n : config.Node) :
  spec_fields d = node_fields n → spec_view h d = view h n.
Proof. unfold spec_fields, node_fields, spec_view, view. by intros [= -> -> ->]. Qed.

Lemma views_of_fields h (ds : list nodeSpec) (ns : list config.Node) :
  spec_fields <$> ds = node_fields <$> ns →
  spec_view h <$> ds = view h <$> ns.
Proof.
  revert ns. induction ds as [|d ds IH]; intros [|n ns]; try done.
  rewrite !fmap_cons. intros Heq.
  assert (spec_fields d = node_fields n
          ∧ spec_fields <$> ds = node_fields <$> ns) as [Hd Hds]
    by (split; congruence).
  f_equal; [by apply spec_view_fields|by apply IH].
Qed.

Lemma omap_fmap_compose {A B C} (f : A → B) (g : B → option C) (l : list A) :
  omap g (f <$> l) = omap (g ∘ f) l.
Proof.
  induction l as [|x l IH]; [done|]. rewrite fmap_cons.
  change (omap g (f x :: (f <$> l)))
    with (match g (f x) with
          | Some y => y :: omap g (f <$> l)
          | None => omap g (f <$> l)
          end).
  by rewrite IH.
Qed.

Lemma sorted_fmap {A} (key : A → Z) (l : list A) :
  StronglySorted (λ a b, (key a ≤ key b)%Z) l →
  StronglySorted Z.le (key <$> l).
Proof.
  induction 1 as [|x l Hs IH Hall]; [constructor|].
  rewrite fmap_cons. constructor; [done|]. by apply Forall_fmap.
Qed.

(** X5: what [nodesToCreate] returns for a well-formed configuration:
    one node spec for each replica of each entry, with the role, the
    image and the mounts of the entry, and nothing else; the specs are
    in non-decreasing rank of their role in [defaultRoleOrder]. *)
Theorem nodesToCreate_specs h cfg (clusterName : string) :
  wf_nodes h (config.Nodes cfg) →
  spec_view (nodesToCreate h cfg clusterName).2
    <$> (nodesToCreate h cfg clusterName).1
  ≡ₚ load_nodes h (config.Nodes cfg) ≫=
       (λ n, replicate (Z.to_nat (replicasOf n)) (view h n))
  ∧ length (nodesToCreate h cfg clusterName).1
    = sum_list ((Z.to_nat ∘ replicasOf) <$> load_nodes h (config.Nodes cfg))
  ∧ StronglySorted Z.le
      ((λ d, makeRoleToOrder defaultRoleOrder (Role d))
         <$> (nodesToCreate h cfg clusterName).1).
Proof.
  intros Hwf.
  destruct (nodesToCreate_wf_unfold h cfg clusterName Hwf)
    as (out & ext & [Hv Hc Hw Hn Hf] & ->). simpl.
  pose proof (specLoop_fields (sortedNodes out defaultRoleOrder)
                (makeNodeNamer clusterName) []) as Hfields.
  simpl in Hfields.
  remember (CNodes (sortedNodes out defaultRoleOrder)) as c eqn:Hcell.
  clear Hcell.
  assert (spec_view ((h ++ ext) ++ [c])
            <$> specLoop (sortedNodes out defaultRoleOrder)
                  (makeNodeNamer clusterName) []
          ≡ₚ expanded h (load_nodes h (config.Nodes cfg))) as Hperm.
  { rewrite (views_of_fields _ _ _ Hfields), <- Hv.
    rewrite <- (sortedNodes_perm out defaultRoleOrder) at 2.
    apply eq_subrelation; [apply _|]. apply Forall_fmap_ext_1.
    rewrite sortedNodes_perm.
    eapply Forall_impl; [exact Hw|]. intros n Hn'. by apply view_ext. }
  split_and!.
  - exact Hperm.
  - apply Permutation_length in Hperm.
    by rewrite length_fmap, length_expanded in Hperm.
  - assert ((λ d, makeRoleToOrder defaultRoleOrder (Role d))
              <$> specLoop (sortedNodes out defaultRoleOrder)
                    (makeNodeNamer clusterName) []
            = (λ n, makeRoleToOrder defaultRoleOrder (config.Role n))
                <$> sortedNodes out defaultRoleOrder) as ->.
    { apply (f_equal (fmap (λ f : string * string * slice,
                makeRoleToOrder defaultRoleOrder f.1.1))) in Hfields.
      by rewrite <- !list_fmap_compose in Hfields. }
    apply sorted_fmap.
    apply (SliceStable_sorted
             (λ n, makeRoleToOrder defaultRoleOrder (config.Role n))).
Qed.

(** X6: the mounts of the node specs are copies.  The mounts slices of
    the returned specs that are not nil refer to arrays that are
    pairwise different and that did not exist before the call: no spec
    shares its mounts with the configuration or with another spec. *)
Theorem nodesToCreate_mounts_fresh h cfg (clusterName : string) :
  wf_nodes h (config.Nodes cfg) →
  NoDup (omap ExtraMounts (nodesToCreate h cfg clusterName).1)
  ∧ (∀ p, p ∈ omap ExtraMounts (nodesToCreate h cfg clusterName).1 →
       h !! p = None
       ∧ ∃ ms, (nodesToCreate h cfg clusterName).2 !! p = Some (CMounts ms)).
Proof.
  intros Hwf.
  destruct (nodesToCreate_wf_unfold h cfg clusterName Hwf)
    as (out & ext & [Hv Hc Hw Hn Hf] & ->). simpl.
  pose proof (specLoop_fields (sortedNodes out defaultRoleOrder)
                (makeNodeNamer clusterName) []) as Hfields.
  simpl in Hfields.
  assert (omap ExtraMounts
            (specLoop (sortedNodes out defaultRoleOrder)
               (makeNodeNamer clusterName) [])
          ≡ₚ omap config.ExtraMounts out) as Hperm.
  { rewrite <- (sortedNodes_perm out defaultRoleOrder) at 2.
    apply eq_subrelation; [apply _|].
    apply (f_equal (omap (λ f : string * string * slice, f.2))) in Hfields.
    by rewrite !omap_fmap_compose in Hfields. }
  split.
  - by rewrite Hperm.
  - intros p Hp. rewrite Hperm in Hp. split.
    + apply Hf in Hp. apply lookup_ge_None. lia.
    + apply list_elem_of_omap in Hp as (n & Hn' & Hem).
      rewrite Forall_forall in Hw. apply Hw in Hn'.
      unfold wf_mounts in Hn'. rewrite Hem in Hn'. destruct Hn' as [ms Hms].
      exists ms. by apply lookup_app_l_Some.
Qed.

Lemma expanded_cleared h (ns : list config.Node) :
  Forall (λ n, config.Replicas n = None) ns → expanded h ns = view h <$> ns.
Proof.
  unfold expanded. induction 1 as [|n l Hn _ IH]; [done|].
  rewrite bind_cons, fmap_cons, IH. unfold replicasOf. by rewrite Hn.
Qed.

(** X7: expanding twice is expanding once.  [convertReplicas] clears
    the replica field of every node it returns, so applied to its own
    result it returns the same nodes again, each once and in the same
    order. *)
Theorem convertReplicas_idempotent h (nodes : slice) :
  wf_nodes h nodes →
  view (convertReplicas (convertReplicas h nodes).2
          (convertReplicas h nodes).1).2
    <$> load_nodes
          (convertReplicas (convertReplicas h nodes).2
             (convertReplicas h nodes).1).2
          (convertReplicas (convertReplicas h nodes).2
             (convertReplicas h nodes).1).1
  = view (convertReplicas h nodes).2
      <$> load_nodes (convertReplicas h nodes).2 (convertReplicas h nodes).1.
Proof.
  intros Hwf.
  destruct (convertReplicas_unfold h nodes Hwf)
    as (out & ext & -> & [Hv Hc Hw Hn Hf]). simpl fst. simpl snd.
  assert (wf_nodes ((h ++ ext) ++ [CNodes out]) (Some (length (h ++ ext))))
    as Hwf1.
  { split.
    - exists out. by rewrite lookup_app_r, Nat.sub_diag.
    - rewrite load_nodes_alloc. rewrite Forall_forall in Hw, Hc.
      apply Forall_forall. intros n Hn'. split.
      + by apply wf_mounts_ext, Hw.
      + by rewrite (Hc n Hn'). }
  destruct (convertReplicas_unfold _ _ Hwf1)
    as (out2 & ext2 & -> & [Hv2 Hc2 Hw2 Hn2 Hf2]). simpl fst. simpl snd.
  rewrite !load_nodes_alloc in *.
  assert (view (((h ++ ext) ++ [CNodes out]) ++ ext2) <$> out2
          = view ((h ++ ext) ++ [CNodes out]) <$> out) as Hsame.
  { rewrite Hv2. by apply expanded_cleared. }
  rewrite <- Hsame. apply Forall_fmap_ext_1.
  eapply Forall_impl; [exact Hw2|]. intros n Hn'. by apply view_ext.
Qed.
End NodesToCreateFacts.

(** ** [createNodeContainers]: what is returned *)

Section OrchestratorTrace.
Context {consts : Constants} {api : NodesAPI}.
Implicit Types (s : state) (a : action) (t : task)
  (trace : list (nodeSpec * option nodesNode)).

Lemma omap_snd_cons (d : nodeSpec) (o : option nodesNode) trace :
  omap snd ((d, o) :: trace)
  = match o with
    | Some node => node :: omap snd trace
    | None => omap snd trace
    end.
Proof. reflexivity. Qed.

Lemma omap_snd_length trace : length (omap snd trace) ≤ length trace.
Proof.
  induction trace as [|[d [n|]] trace IH]; [done|..];
    rewrite omap_snd_cons; simpl; lia.
Qed.

Lemma omap_snd_full trace :
  length (omap snd trace) = length trace →
  snd <$> trace = Some <$> omap snd trace.
Proof.
  induction trace as [|[d [n|]] trace IH]; [done|..];
    rewrite omap_snd_cons; simpl; intros Hlen.
  - rewrite ?fmap_cons. simpl. f_equal. apply IH. lia.
  - pose proof (omap_snd_length trace). lia.
Qed.

Lemma omap_snd_insert trace (i : nat) (d : nodeSpec) (node : nodesNode) :
  trace !! i = Some (d, None) →
  omap snd (<[i := (d, Some node)]> trace) ≡ₚ node :: omap snd trace.
Proof.
  revert i. induction trace as [|[d' [n|]] trace IH]; intros [|i] Hi;
    simplify_eq/=; rewrite ?omap_snd_cons; try done.
  - rewrite (IH i Hi). apply Permutation_swap.
  - by apply IH.
Qed.

Lemma all_delivered_produced (label : string) trace (ts : list task)
    (nodes : list nodesNode) :
  Forall2 (task_ok label) trace ts →
  snd <$> trace = Some <$> nodes →
  Forall2 (λ d node, produces label d (inl node)) (fst <$> trace) nodes
  ∧ Forall (λ t, t = Finished) ts.
Proof.
  intros Hf. revert nodes.
  induction Hf as [|[d o] t trace ts Hok _ IH]; intros [|n nodes] Heq;
    try done.
  rewrite !fmap_cons in Heq. simpl in Heq.
  assert (o = Some n ∧ snd <$> trace = Some <$> nodes) as [-> Hrest]
    by (split; congruence).
  destruct (IH nodes Hrest) as [IH1 IH2].
  destruct t as [d'|node|err| |]; simpl in Hok;
    try (by destruct Hok as [_ ?]); [|done].
  destruct Hok as (node & [= <-] & Hprod).
  split; [rewrite fmap_cons|]; by constructor.
Qed.

Lemma traced_started (desiredNodes : list nodeSpec) (label : string)
    (w : World) :
  traced desiredNodes label (started desiredNodes label w).
Proof.
  unfold traced, started. simpl. split_and!; try done.
  exists ((λ d, (d, None)) <$> desiredNodes). split_and!.
  - rewrite <- list_fmap_compose. apply list_fmap_id.
  - induction desiredNodes as [|d l IH]; [constructor|].
    rewrite !fmap_cons. by constructor.
  - induction desiredNodes as [|d l IH]; [done|].
    by rewrite fmap_cons.
Qed.

(** After the return nothing changes the result. *)
Lemma step_main_final a s s' (allNodes : list nodesNode)
    (err : option error) :
  main s = Returned allNodes err → step a s = Some s' →
  main s' = Returned allNodes err.
Proof.
  intros Hmain. unfold step. destruct a as [i|].
  - destruct (tasks s !! i) as [[d|node|e| |]|]; try done.
    + destruct (taskBody _ _ _) as [r w]. by intros [= <-].
    + destruct (nodeChanClosed s); [by intros [= <-]|].
      case_decide; [|done]. by intros [= <-].
    + destruct (errChanClosed s); [by intros [= <-]|]. by rewrite Hmain.
  - by rewrite Hmain.
Qed.

Lemma step_traced (desiredNodes : list nodeSpec) (label : string) a s s' :
  traced desiredNodes label s → step a s = Some s' →
  traced desiredNodes label s'.
Proof.
  unfold traced at 1.
  destruct (main s) as [allNodes|allNodes [err|]] eqn:Hmain.
  - (* the collector is at its select *)
    intros (Hlabel & Hwanted & Hno & Heo & trace & Hfst & Hf2 & Hperm).
    unfold step. destruct a as [i|].
    + destruct (tasks s !! i) as [t|] eqn:Hi; [|done].
      destruct (Forall2_lookup_r _ _ _ _ _ Hf2 Hi) as ([d o] & Htr & Hok).
      destruct t as [d'|node|err| |]; simpl in Hok; try done.
      * destruct Hok as [-> ->].
        destruct (taskBody d (clusterLabel s) (world s)) as [r w] eqn:Hbody.
        intros [= <-]. unfold traced. simpl. rewrite Hmain.
        split_and!; try done. exists trace. split_and!; try done.
        rewrite <- (list_insert_id trace i (d, None)) by done.
        apply Forall2_insert; [done|]. rewrite Hlabel in Hbody.
        destruct r; simpl; (split; [|done]); by exists (world s), w.
      * destruct Hok as [Hprod ->]. rewrite Hno.
        case_decide; [|done]. intros [= <-]. unfold traced. simpl.
        rewrite Hmain. split_and!; try done.
        exists (<[i := (d, Some node)]> trace). split_and!.
        -- rewrite list_fmap_insert. simpl. rewrite <- Hfst.
           apply list_insert_id. by rewrite list_lookup_fmap, Htr.
        -- apply Forall2_insert; [done|]. simpl. by exists node.
        -- rewrite (omap_snd_insert _ _ _ _ Htr), <- Hperm.
           rewrite app_assoc. by rewrite <- Permutation_cons_append.
      * destruct Hok as [Hprod ->]. rewrite Heo, Hmain.
        intros [= <-]. unfold traced. simpl. split; [done|].
        exists d. split; [|done]. rewrite <- Hfst.
        apply list_elem_of_fmap. exists (d, None). split; [done|].
        by eapply list_elem_of_lookup_2.
    + rewrite Hmain. destruct (nodeChan s) as [|node rest] eqn:Hbuf; [done|].
      case_decide as Hfull; intros [= <-]; unfold traced; simpl.
      * assert (length trace = length desiredNodes) as Hlen
          by (by rewrite <- Hfst, length_fmap).
        pose proof (omap_snd_length trace) as Hle.
        pose proof (Permutation_length Hperm) as Hpl.
        rewrite length_app in Hfull, Hpl. simpl in Hfull, Hpl.
        assert (rest = []) as -> by (apply length_zero_iff_nil; lia).
        destruct (all_delivered_produced label trace (tasks s)
                    (omap snd trace) Hf2) as [Hprod Hfin].
        { apply omap_snd_full. lia. }
        exists (omap snd trace). rewrite Hfst in Hprod.
        split_and!; [by rewrite <- Hperm|done..].
      * split_and!; try done. exists trace. split_and!; try done.
        by rewrite <- app_assoc.
  - (* returned with an error: the result stays *)
    intros Hs Hstep. unfold traced.
    by rewrite (step_main_final _ _ _ _ _ Hmain Hstep).
  - (* returned with all nodes: every goroutine has ended *)
    intros (produced & _ & _ & Hfin & _). unfold step.
    destruct a as [i|]; [|by rewrite Hmain].
    destruct (tasks s !! i) as [t|] eqn:Hi; [|done].
    rewrite Forall_forall in Hfin.
    by rewrite (Hfin t (list_elem_of_lookup_2 _ _ _ Hi)).
Qed.

Lemma run_traced (desiredNodes : list nodeSpec) (label : string)
    (schedule : list action) s s' :
  traced desiredNodes label s → run schedule s = Some s' →
  traced desiredNodes label s'.
Proof.
  revert s. induction schedule as [|a schedule IH]; intros s Hs; simpl.
  { by intros [= <-]. }
  destruct (step a s) as [s1|] eqn:Hstep; [|done].
  apply IH. by eapply step_traced.
Qed.

Lemma run_main_final (schedule : list action) s s'
    (allNodes : list nodesNode) (err : option error) :
  main s = Returned allNodes err → run schedule s = Some s' →
  main s' = Returned allNodes err.
Proof.
  revert s. induction schedule as [|a schedule IH]; intros s Hs; simpl.
  { by intros [= <-]. }
  destruct (step a s) as [s1|] eqn:Hstep; [|done].
  apply IH. by eapply step_main_final.
Qed.



Lemma Create_not_dispatched (d : nodeSpec) (label : string) (w : World) :
  Role d ∉ [ExternalLoadBalancerNodeRoleValue; ControlPlaneNodeRoleValue;
            WorkerNodeRoleValue] →
  taskBody d label w
  = (inr (Errorf ("unknown node role: " +:+ Role d)), w).
Proof.
  rewrite !not_elem_of_cons. intros (? & ? & ? & _).
  unfold taskBody, Create. by rewrite !decide_False.
Qed.

(** X10: one node spec of a role that [Create] does not dispatch is
    enough for the whole call to fail: whatever the schedule and the
    other nodes, [createNodeContainers] never returns without error. *)
Theorem undispatched_role_never_succeeds {Mount} (h : heap Mount)
    (cfg : config.Config) (clusterName label : string) (w : World)
    (schedule : list action) (s : state) (allNodes : list nodesNode)
    (err : option error) (d : nodeSpec) :
  d ∈ (nodesToCreate h cfg clusterName).1 →
  Role d ∉ [ExternalLoadBalancerNodeRoleValue; ControlPlaneNodeRoleValue;
            WorkerNodeRoleValue] →
  run schedule (createNodeContainers h cfg clusterName label w) = Some s →
  main s = Returned allNodes err →
  is_Some err.
Proof.
  unfold createNodeContainers. intros Hd Hrole Hrun Hmain.
  destruct err as [e|]; [by eexists|exfalso].
  pose proof (run_traced _ _ _ _ _ (traced_started _ label w) Hrun) as Ht.
  unfold traced in Ht. rewrite Hmain in Ht.
  destruct Ht as (produced & _ & Hprod & _).
  apply list_elem_of_lookup in Hd as [i Hi].
  destruct (Forall2_lookup_l _ _ _ _ _ Hprod Hi) as (node & _ & w0 & w1 & Hb).
  by rewrite Create_not_dispatched in Hb.
Qed.

Lemma started_nil_stuck (label : string) (w : World)
    (schedule : list action) s :
  run schedule (started [] label w) = Some s → s = started [] label w.
Proof.
  destruct schedule as [|a schedule]; simpl; [by intros [= <-]|].
  by destruct a.
Qed.

(** C1, on the code: a configuration whose only entry has a replica
    count of 0 gives no node spec, and then [createNodeContainers]
    returns nothing: whatever the schedule, the collector is still at
    its [select] with no node, and no run reaches a return, neither
    with nodes nor with an error.  For one node spec or more the claim
    holds. *)
Theorem no_replicas_never_returns (clusterName label : string) (w : World)
    (schedule : list action) :
  (nodesToCreate
     ([CNodes [config.mkNode WorkerNodeRoleValue "img" None (Some 0%Z)]]
        : heap unit)
     (config.mkConfig (Some 0)) clusterName).1 = []
  ∧ match run schedule
            (createNodeContainers
               ([CNodes [config.mkNode WorkerNodeRoleValue "img" None
                           (Some 0%Z)]] : heap unit)
               (config.mkConfig (Some 0)) clusterName label w) with
    | Some s => main s = Collecting []
    | None => True
    end
  ∧ ¬ (∃ s allNodes err,
         run schedule
           (createNodeContainers
              ([CNodes [config.mkNode WorkerNodeRoleValue "img" None
                          (Some 0%Z)]] : heap unit)
              (config.mkConfig (Some 0)) clusterName label w) = Some s
         ∧ main s = Returned allNodes err).
Proof.
  assert ((nodesToCreate
             ([CNodes [config.mkNode WorkerNodeRoleValue "img" None
                         (Some 0%Z)]] : heap unit)
             (config.mkConfig (Some 0)) clusterName).1 = []) as Hnone
    by reflexivity.
  split; [exact Hnone|]. unfold createNodeContainers. rewrite Hnone.
  split.
  - destruct (run schedule (started [] label w)) as [s|] eqn:Hrun; [|done].
    by rewrite (started_nil_stuck _ _ _ _ Hrun).
  - intros (s & allNodes & err & Hrun & Hmain).
    by rewrite (started_nil_stuck _ _ _ _ Hrun) in Hmain.
Qed.

(** X11: before the return no send of a goroutine blocks or panics.
    While the collector is at its [select], no goroutine has panicked; a
    goroutine at [nodeChan <- node] can move, and its node goes into the
    buffer; a goroutine at [errChan <- err] can move, and the call
    returns its error. *)
Theorem sends_before_return {Mount} (h : heap Mount)
    (cfg : config.Config) (clusterName label : string) (w : World)
    (schedule : list action) (s : state) (allNodes : list nodesNode) :
  run schedule (createNodeContainers h cfg clusterName label w) = Some s →
  main s = Collecting allNodes →
  Forall (λ t, t ≠ Panicked) (tasks s)
  ∧ (∀ i node, tasks s !! i = Some (SendNode node) →
       ∃ s', step (Go i) s = Some s'
             ∧ tasks s' = <[i := Finished]> (tasks s)
             ∧ nodeChan s' = nodeChan s ++ [node]
             ∧ main s' = Collecting allNodes)
  ∧ (∀ i err, tasks s !! i = Some (SendErr err) →
       ∃ s', step (Go i) s = Some s'
             ∧ main s' = Returned [] (Some err)).
Proof.
  unfold createNodeContainers.
  destruct ((nodesToCreate h cfg clusterName).1) as [|d ds] eqn:Hds.
  { intros ->%started_nil_stuck _. split; [constructor|].
    split; intros i ? Hi; by destruct i. }
  intros Hrun Hmain.
  assert (live s) as Hlive.
  { eapply run_live; [|exact Hrun]. apply live_started. simpl. lia. }
  unfold live in Hlive. rewrite Hmain in Hlive.
  destruct Hlive as [Hno Heo Hcap Hlen Hnp Hcount Hmore].
  split; [done|]. split.
  - intros i node Hi. unfold step. rewrite Hi, Hno.
    pose proof (delivered_lt _ _ _ Hi eq_refl).
    rewrite decide_True by lia. eexists. split; [done|]. by simpl.
  - intros i err Hi. unfold step. rewrite Hi, Heo, Hmain.
    eexists. split; [done|]. by simpl.
Qed.

Lemma measure_started (desiredNodes : list nodeSpec) (label : string)
    (w : World) :
  measure (started desiredNodes label w) = 3 * length desiredNodes.
Proof.
  unfold measure, started, collected. simpl.
  assert (sum_list_with weight (Running <$> desiredNodes)
          = 2 * length desiredNodes) as ->.
  { induction desiredNodes as [|d l IH]; [done|].
    rewrite fmap_cons. simpl. lia. }
  lia.
Qed.

Lemma run_measure (schedule : list action) s s' :
  live s → run schedule s = Some s' → ¬ has_returned s' →
  length schedule + measure s' ≤ measure s.
Proof.
  revert s. induction schedule as [|a schedule IH]; intros s Hlive; simpl.
  { intros [= <-] _. lia. }
  destruct (step a s) as [s1|] eqn:Hstep; [|done]. intros Hrun Hnot.
  assert (¬ has_returned s) as Hs.
  { unfold has_returned. destruct (main s) as [|allNodes err] eqn:Hmain;
      [tauto|]. intros _. apply Hnot. unfold has_returned.
    assert (run (a :: schedule) s = Some s') as Hrun'
      by (simpl; by rewrite Hstep).
    by rewrite (run_main_final _ _ _ _ _ Hmain Hrun'). }
  destruct (step_decreases _ _ _ Hlive Hs Hstep) as [Hret|Hlt].
  - exfalso. apply Hnot. unfold has_returned in *.
    destruct (main s1) as [|allNodes err] eqn:Hmain; [done|].
    by rewrite (run_main_final _ _ _ _ _ Hmain Hrun).
  - pose proof (IH s1 (step_live _ _ _ Hlive Hstep) Hrun Hnot). lia.
Qed.

(** X13: a bound on the moves before the return.  With [N] node specs,
    a run in which [createNodeContainers] has not returned yet has made
    at most [3 * N] moves (a goroutine makes two, the collector one for
    each node it takes). *)
Theorem moves_before_return_bounded {Mount} (h : heap Mount)
    (cfg : config.Config) (clusterName label : string) (w : World)
    (schedule : list action) (s : state) :
  run schedule (createNodeContainers h cfg clusterName label w) = Some s →
  ¬ has_returned s →
  length schedule ≤ 3 * length (nodesToCreate h cfg clusterName).1.
Proof.
  unfold createNodeContainers.
  destruct ((nodesToCreate h cfg clusterName).1) as [|d ds] eqn:Hds.
  { destruct schedule as [|[i|] schedule]; simpl; [lia|done|done]. }
  intros Hrun Hnot.
  pose proof (run_measure schedule _ _
                (live_started (d :: ds) label w ltac:(simpl; lia))
                Hrun Hnot) as Hle.
  rewrite measure_started in Hle. lia.
Qed.
End OrchestratorTrace.

(** * The theorems at work

    Runs of the definitions on the sample valuation and the simulated
    runtime: an instance of every theorem above that has a premise, and
    the inputs on which a sentence of the specification does not hold. *)

#[local] Existing Instance Sample.constants.
#[local] Existing Instance Sample.api.

(** ** Role order *)

Lemma unlisted_roles_sort_last_witness :
  (Z.of_nat (length defaultRoleOrder) ≤ 10000)%Z
  ∧ (makeRoleToOrder defaultRoleOrder "worker"
     < makeRoleToOrder defaultRoleOrder "edge")%Z
  ∧ (∀ i j a b,
       load_nodes (sortNodes (Sample.store [Sample.edge; Sample.worker])
                     (Some 0) defaultRoleOrder) (Some 0) !! i = Some a →
       load_nodes (sortNodes (Sample.store [Sample.edge; Sample.worker])
                     (Some 0) defaultRoleOrder) (Some 0) !! j = Some b →
       config.Role a ∈ defaultRoleOrder → config.Role b ∉ defaultRoleOrder →
       i < j).
Proof.
  assert (Z.of_nat (length defaultRoleOrder) ≤ 10000)%Z as Hlen
    by (vm_compute; discriminate).
  destruct (unlisted_roles_sort_last defaultRoleOrder
              (Sample.store [Sample.edge; Sample.worker]) (Some 0) Hlen)
    as (Hrank & _ & Hsorted).
  split; [exact Hlen|]. split; [|exact Hsorted].
  apply Hrank.
  - unfold defaultRoleOrder. simpl. rewrite !elem_of_cons. tauto.
  - unfold defaultRoleOrder. simpl. rewrite !not_elem_of_cons.
    split_and!; try discriminate. apply not_elem_of_nil.
Defined.

(** C9 as stated fails on a role order of 10001 entries.  Its last
    role, ["worker"], is listed and has rank 10000, the rank of the
    unlisted role ["edge"]; and [sortNodes] leaves the node of role
    ["edge"] in front of the node of role ["worker"]. *)
Lemma long_role_order_counterexample :
  "worker" ∈ (replicate (Z.to_nat 10000) "control-plane" ++ ["worker"])
  ∧ ("edge" ∉ (replicate (Z.to_nat 10000) "control-plane" ++ ["worker"]))
  ∧ makeRoleToOrder
      (replicate (Z.to_nat 10000) "control-plane" ++ ["worker"]) "worker"
    = makeRoleToOrder
        (replicate (Z.to_nat 10000) "control-plane" ++ ["worker"]) "edge"
  ∧ load_nodes
      (sortNodes (Sample.store [Sample.edge; Sample.worker]) (Some 0)
         (replicate (Z.to_nat 10000) "control-plane" ++ ["worker"]))
      (Some 0)
    = [Sample.edge; Sample.worker].
Proof.
  assert ("edge" ∉ replicate (Z.to_nat 10000) "control-plane") as Hpre.
  { rewrite elem_of_replicate. intros [? _]. discriminate. }
  assert (Z.of_nat (length (replicate (Z.to_nat 10000) "control-plane"))
          = 10000%Z) as Hlen.
  { rewrite length_replicate. apply Z2Nat.id. discriminate. }
  remember (replicate (Z.to_nat 10000) "control-plane") as pre eqn:Heq.
  clear Heq.
  assert ("edge" ∉ (pre ++ ["worker"])) as Hedge.
  { rewrite elem_of_app, list_elem_of_singleton.
    intros [?|?]; [tauto|discriminate]. }
  pose proof (makeRoleToOrder_last pre "worker") as Hworker.
  rewrite Hlen in Hworker.
  pose proof (makeRoleToOrder_absent _ _ Hedge) as Hrank.
  split; [rewrite elem_of_app, list_elem_of_singleton; by right|].
  split; [exact Hedge|]. split; [by rewrite Hworker, Hrank|].
  rewrite load_nodes_sortNodes. unfold sortedNodes, lessByRole.
  unfold Sample.store, load_nodes. cbn [lookup list_lookup].
  unfold Sample.worker, Sample.edge.
  cbn [SliceStable stable_insert config.Role].
  rewrite Hworker, Hrank. reflexivity.
Qed.

(** ** Replica expansion *)

Lemma convertReplicas_never_fails_witness :
  ∃ p h' out,
    convertReplicas
      (Sample.store [config.mkNode "worker" "img" None (Some (-1)%Z);
                     config.mkNode "worker" "img" None (Some 2%Z)])
      (Some 0)
    = (Some p, h')
    ∧ Sample.store [config.mkNode "worker" "img" None (Some (-1)%Z);
                    config.mkNode "worker" "img" None (Some 2%Z)] !! p = None
    ∧ h' !! p = Some (CNodes out)
    ∧ length out = 2.
Proof.
  apply (convertReplicas_never_fails
           (Sample.store [config.mkNode "worker" "img" None (Some (-1)%Z);
                          config.mkNode "worker" "img" None (Some 2%Z)])
           (Some 0)).
  split; [by eexists|].
  repeat constructor; simpl; unfold is_int32, int32_min, int32_max; lia.
Defined.

(** C6 as stated fails on an entry with replica count [-1]: the call
    does not fail, it returns the empty slice. *)
Lemma negative_replicas_counterexample :
  config.Replicas (config.mkNode "worker" "img" None (Some (-1)%Z))
  = Some (-1)%Z
  ∧ convertReplicas
      (Sample.store [config.mkNode "worker" "img" None (Some (-1)%Z)]) (Some 0)
    = (Some 1,
       [CNodes [config.mkNode "worker" "img" None (Some (-1)%Z)]; CNodes []]).
Proof. split; reflexivity. Qed.

Lemma convertReplicas_independent_copies_witness :
  ∃ out h',
    convertReplicas
      [CNodes [config.mkNode "worker" "img" (Some 1) (Some 2%Z);
               config.mkNode "control-plane" "img" None None];
       CMounts ["/var/lib"]]
      (Some 0)
    = (out, h')
    ∧ Z.of_nat (length (load_nodes h' out)) = 3%Z
    ∧ view h' <$> load_nodes h' out
      = [("worker", "img", Some ["/var/lib"]);
         ("worker", "img", Some ["/var/lib"]);
         ("control-plane", "img", None)]
    ∧ Forall (λ n, config.Replicas n = None) (load_nodes h' out)
    ∧ NoDup (omap config.ExtraMounts (load_nodes h' out))
    ∧ (∀ p, p ∈ omap config.ExtraMounts (load_nodes h' out) →
         [CNodes [config.mkNode "worker" "img" (Some 1) (Some 2%Z);
                  config.mkNode "control-plane" "img" None None];
          CMounts ["/var/lib"]] !! p = None
         ∧ ∃ ms : list string, h' !! p = Some (CMounts ms)).
Proof.
  apply (convertReplicas_independent_copies
           [CNodes [config.mkNode "worker" "img" (Some 1) (Some 2%Z);
                    config.mkNode "control-plane" "img" None None];
            CMounts ["/var/lib"]]
           (Some 0)).
  - split; [by eexists|].
    repeat constructor; simpl; try (by eexists);
      unfold is_int32, int32_min, int32_max; lia.
  - repeat constructor; vm_compute; discriminate.
Defined.

(** ** The configuration is left as it was *)

Lemma nodesToCreate_preserves_config_witness :
  load_nodes
    (nodesToCreate
       [CNodes [config.mkNode "worker" "img" (Some 1) (Some 2%Z);
                config.mkNode "control-plane" "img" None None];
        CMounts ["/var/lib"]]
       Sample.cfg "kind").2
    (config.Nodes Sample.cfg)
  = [config.mkNode "worker" "img" (Some 1) (Some 2%Z);
     config.mkNode "control-plane" "img" None None]
  ∧ Forall (λ n,
      load_mounts
        (nodesToCreate
           [CNodes [config.mkNode "worker" "img" (Some 1) (Some 2%Z);
                    config.mkNode "control-plane" "img" None None];
            CMounts ["/var/lib"]]
           Sample.cfg "kind").2
        (config.ExtraMounts n)
      = load_mounts
          [CNodes [config.mkNode "worker" "img" (Some 1) (Some 2%Z);
                   config.mkNode "control-plane" "img" None None];
           CMounts ["/var/lib"]]
          (config.ExtraMounts n))
      [config.mkNode "worker" "img" (Some 1) (Some 2%Z);
       config.mkNode "control-plane" "img" None None].
Proof.
  apply (nodesToCreate_preserves_config
           [CNodes [config.mkNode "worker" "img" (Some 1) (Some 2%Z);
                    config.mkNode "control-plane" "img" None None];
            CMounts ["/var/lib"]]
           Sample.cfg "kind").
  split; [by eexists|].
  repeat constructor; simpl; try (by eexists);
    unfold is_int32, int32_min, int32_max; lia.
Defined.

(** ** Node names *)

Lemma node_names_distinct_witness :
  NoDup (Name <$> (nodesToCreate
                     (Sample.store [Sample.worker; Sample.worker;
                        config.mkNode "control-plane" "img" None (Some 3%Z)])
                     Sample.cfg "kind").1).
Proof.
  apply node_names_distinct. apply no_trailing_digit_unambiguous.
  repeat constructor.
Defined.

(** C8 as stated fails when a role is another role followed by a
    number: the second node of role ["worker"] and the node of role
    ["worker2"] are both named ["kind-worker2"]. *)
Lemma node_names_counterexample :
  Name <$> (nodesToCreate
              (Sample.store [Sample.worker; Sample.worker;
                             config.mkNode "worker2" "img" None None])
              Sample.cfg "kind").1
  = ["kind-worker"; "kind-worker2"; "kind-worker2"]
  ∧ ¬ NoDup (Name <$> (nodesToCreate
                         (Sample.store [Sample.worker; Sample.worker;
                            config.mkNode "worker2" "img" None None])
                         Sample.cfg "kind").1).
Proof.
  assert (Name <$> (nodesToCreate
              (Sample.store [Sample.worker; Sample.worker;
                             config.mkNode "worker2" "img" None None])
              Sample.cfg "kind").1
          = ["kind-worker"; "kind-worker2"; "kind-worker2"]) as Hnames
    by (vm_compute; reflexivity).
  split; [exact Hnames|]. rewrite Hnames. intros Hnd.
  apply NoDup_cons in Hnd as [_ Hnd]. apply NoDup_cons in Hnd as [Hnot _].
  apply Hnot. apply elem_of_cons. by left.
Qed.

(** ** Creation by role and the errors of a task *)

Lemma Create_dispatch_witness :
  @Create Sample.constants Sample.api (mkSpec "kind-worker" "worker" "img" None) "label" []
  = @CreateWorkerNode Sample.api "kind-worker" "img" "label" None []
  ∧ @Create Sample.constants Sample.api (mkSpec "kind-edge" "edge" "img" None) "label" []
    = (inr (Errorf "unknown node role: edge"), []).
Proof.
  destruct (Create_dispatch (consts := Sample.constants) (api := Sample.api)
              (mkSpec "kind-worker" "worker" "img" None)
              "label" []) as (_ & _ & Hworker & _).
  destruct (Create_dispatch (consts := Sample.constants) (api := Sample.api)
              (mkSpec "kind-edge" "edge" "img" None)
              "label" []) as (_ & _ & _ & Hunknown & _).
  split.
  - apply Hworker. reflexivity.
  - apply Hunknown. simpl. rewrite !not_elem_of_cons.
    split_and!; try discriminate. apply not_elem_of_nil.
Defined.

(** C2 as stated fails on the role [ExternalEtcd], one of the four
    known roles: [Create] has no case for it, returns the unknown-role
    error and calls no operation (the log of the runtime stays empty). *)
Lemma Create_external_etcd_counterexample :
  @Create Sample.constants Sample.api (mkSpec "kind-external-etcd" (@ExternalEtcdNodeRoleValue Sample.constants)
       "img" None)
    "label" []
  = (inr (errorString "unknown node role: external-etcd"), []).
Proof. reflexivity. Qed.

Lemma task_error_origin_witness :
  @taskBody Sample.constants Sample.api
    (mkSpec "kind-worker" "worker" "noproxy" None) "label" []
  = (inr (withMessage (errorString "SetProxy failed")
            "failed to set proxy for node kind-worker"),
     ["worker kind-worker"; "FixMounts kind-worker"; "SetProxy kind-worker"])
  ∧ @task_error Sample.constants Sample.api
      (mkSpec "kind-worker" "worker" "slow" None) "label" []
      (errorString
         "timed out waiting for docker to be ready on node kind-worker")
      ["worker kind-worker"; "FixMounts kind-worker"; "SetProxy kind-worker";
       "SignalStart kind-worker"; "WaitForDocker kind-worker"].
Proof.
  split.
  - apply (task_error_origin (consts := Sample.constants)
             (api := Sample.api)).
    do 4 right. exists ("kind-worker", "noproxy"), ["worker kind-worker"].
    split; [vm_compute; reflexivity|].
    right. left.
    exists ["worker kind-worker"; "FixMounts kind-worker"],
      (errorString "SetProxy failed").
    split_and!; vm_compute; reflexivity.
  - apply (task_error_origin (consts := Sample.constants)
             (api := Sample.api)).
    vm_compute. reflexivity.
Defined.

(** C5 as stated fails twice on the simulated runtime.  The node spec
    ["kind-edge"] of unknown role ["edge"] yields an error that names the
    role and not the node; the node ["kind-worker"] whose mounts cannot be
    fixed yields the error of [FixMounts] as it is. *)
Lemma task_error_counterexample :
  @taskBody Sample.constants Sample.api (mkSpec "kind-edge" "edge" "img" None) "label" []
  = (inr (errorString "unknown node role: edge"), [])
  ∧ ¬ annotated_with "kind-edge" (errorString "unknown node role: edge")
  ∧ @taskBody Sample.constants Sample.api (mkSpec "kind-worker" "worker" "badmounts" None) "label" []
    = (inr (errorString "FixMounts failed"),
       ["worker kind-worker"; "FixMounts kind-worker"])
  ∧ ¬ annotated_with "kind-worker" (errorString "FixMounts failed").
Proof.
  split_and!.
  - vm_compute. reflexivity.
  - intros Ha. apply annotated_with_Contains in Ha. vm_compute in Ha.
    discriminate.
  - vm_compute. reflexivity.
  - intros Ha. apply annotated_with_Contains in Ha. vm_compute in Ha.
    discriminate.
Qed.

(** ** The orchestrator *)


(** C4, on the code: two node specs of unknown role.  Both goroutines
    reach [errChan <- err]; the collector receives the first error and
    returns, closing both channels; the send of the second goroutine
    then panics, and nothing else is left for it to do.  A node is not
    taken either: with a good node (sorted first) and a node of unknown
    role, the goroutine of the good node that reaches [nodeChan <- node]
    after the return panics as well. *)
Theorem pending_deliveries_panic :
  match run [Go 0; Go 1; Go 0]
          (@createNodeContainers Sample.constants Sample.api string
             (Sample.store [Sample.edge; Sample.edge])
             Sample.cfg "kind" "label" []) with
  | None => False
  | Some s =>
      main s = Returned [] (Some (errorString "unknown node role: edge"))
      ∧ tasks s = [Finished;
                   SendErr (errorString "unknown node role: edge")]
      ∧ step (Go 1) s = Some (set_task s 1 Panicked)
  end
  ∧ match run [Go 0; Go 1; Go 1]
            (@createNodeContainers Sample.constants Sample.api string
               (Sample.store [Sample.edge; Sample.worker])
               Sample.cfg "kind" "label" []) with
    | None => False
    | Some s =>
        main s = Returned [] (Some (errorString "unknown node role: edge"))
        ∧ tasks s = [SendNode ("kind-worker", "img"); Finished]
        ∧ step (Go 0) s = Some (set_task s 0 Panicked)
    end.
Proof. split; vm_compute; repeat split. Qed.

(** ** Instances of the further properties *)

Lemma sortNodes_sorts_witness :
  sortNodes [CNodes [Sample.edge; Sample.worker]; CMounts ["/var/lib"]]
    (Some 0) defaultRoleOrder !! 1
  = [CNodes [Sample.edge; Sample.worker]; CMounts ["/var/lib"]] !! 1.
Proof.
  destruct (sortNodes_sorts
              [CNodes [Sample.edge; Sample.worker]; CMounts ["/var/lib"]]
              (Some 0) defaultRoleOrder) as (_ & _ & _ & Hframe).
  apply Hframe. discriminate.
Defined.

Lemma makeRoleToOrder_last_occurrence_witness :
  makeRoleToOrder (["worker"; "control-plane"] ++ "worker" :: ["edge"])
    "worker"
  = Z.of_nat (length ["worker"; "control-plane"]).
Proof.
  apply makeRoleToOrder_last_occurrence.
  rewrite list_elem_of_singleton. discriminate.
Defined.

Lemma nodesToCreate_names_witness :
  Name (mkSpec "kind-worker3" "worker" "img" None)
  = "kind" +:+ "-" +:+ Role (mkSpec "kind-worker3" "worker" "img" None)
    +:+ suffixOf (Z.of_nat
          (occurrences (Role (mkSpec "kind-worker3" "worker" "img" None))
             (take 4
                (nodesToCreate
                   (Sample.store
                      [Sample.worker;
                       config.mkNode "control-plane" "img" None None;
                       config.mkNode "worker" "img" None (Some 2%Z)])
                   Sample.cfg "kind").1))).
Proof.
  apply (nodesToCreate_names
           (Sample.store
              [Sample.worker;
               config.mkNode "control-plane" "img" None None;
               config.mkNode "worker" "img" None (Some 2%Z)])
           Sample.cfg "kind" 3).
  vm_compute. reflexivity.
Defined.

Lemma sample_mounted_wf :
  wf_nodes
    [CNodes [config.mkNode "worker" "img" (Some 1) (Some 2%Z);
             config.mkNode "control-plane" "img" None None];
     CMounts ["/var/lib"]]
    (Some 0).
Proof.
  split; [by eexists|].
  repeat constructor; simpl; try (by eexists);
    unfold is_int32, int32_min, int32_max; lia.
Qed.

Lemma nodesToCreate_specs_witness :
  length (nodesToCreate
            [CNodes [config.mkNode "worker" "img" (Some 1) (Some 2%Z);
                     config.mkNode "control-plane" "img" None None];
             CMounts ["/var/lib"]]
            Sample.cfg "kind").1
  = 3
  ∧ StronglySorted Z.le
      ((λ d, makeRoleToOrder defaultRoleOrder (Role d))
         <$> (nodesToCreate
                [CNodes [config.mkNode "worker" "img" (Some 1) (Some 2%Z);
                         config.mkNode "control-plane" "img" None None];
                 CMounts ["/var/lib"]]
                Sample.cfg "kind").1).
Proof.
  destruct (nodesToCreate_specs
              [CNodes [config.mkNode "worker" "img" (Some 1) (Some 2%Z);
                       config.mkNode "control-plane" "img" None None];
               CMounts ["/var/lib"]]
              Sample.cfg "kind" sample_mounted_wf) as (_ & Hlen & Hsorted).
  split; [exact Hlen|exact Hsorted].
Defined.

Lemma nodesToCreate_mounts_fresh_witness :
  NoDup (omap ExtraMounts
           (nodesToCreate
              [CNodes [config.mkNode "worker" "img" (Some 1) (Some 2%Z);
                       config.mkNode "control-plane" "img" None None];
               CMounts ["/var/lib"]]
              Sample.cfg "kind").1).
Proof.
  exact (proj1 (nodesToCreate_mounts_fresh
                  [CNodes [config.mkNode "worker" "img" (Some 1) (Some 2%Z);
                           config.mkNode "control-plane" "img" None None];
                   CMounts ["/var/lib"]]
                  Sample.cfg "kind" sample_mounted_wf)).
Defined.

Lemma convertReplicas_idempotent_witness :
  view (convertReplicas
          (convertReplicas
             [CNodes [config.mkNode "worker" "img" (Some 1) (Some 2%Z);
                      config.mkNode "control-plane" "img" None None];
              CMounts ["/var/lib"]] (Some 0)).2
          (convertReplicas
             [CNodes [config.mkNode "worker" "img" (Some 1) (Some 2%Z);
                      config.mkNode "control-plane" "img" None None];
              CMounts ["/var/lib"]] (Some 0)).1).2
    <$> load_nodes
          (convertReplicas
             (convertReplicas
                [CNodes [config.mkNode "worker" "img" (Some 1) (Some 2%Z);
                         config.mkNode "control-plane" "img" None None];
                 CMounts ["/var/lib"]] (Some 0)).2
             (convertReplicas
                [CNodes [config.mkNode "worker" "img" (Some 1) (Some 2%Z);
                         config.mkNode "control-plane" "img" None None];
                 CMounts ["/var/lib"]] (Some 0)).1).2
          (convertReplicas
             (convertReplicas
                [CNodes [config.mkNode "worker" "img" (Some 1) (Some 2%Z);
                         config.mkNode "control-plane" "img" None None];
                 CMounts ["/var/lib"]] (Some 0)).2
             (convertReplicas
                [CNodes [config.mkNode "worker" "img" (Some 1) (Some 2%Z);
                         config.mkNode "control-plane" "img" None None];
                 CMounts ["/var/lib"]] (Some 0)).1).1
  = view (convertReplicas
            [CNodes [config.mkNode "worker" "img" (Some 1) (Some 2%Z);
                     config.mkNode "control-plane" "img" None None];
             CMounts ["/var/lib"]] (Some 0)).2
      <$> load_nodes
            (convertReplicas
               [CNodes [config.mkNode "worker" "img" (Some 1) (Some 2%Z);
                        config.mkNode "control-plane" "img" None None];
                CMounts ["/var/lib"]] (Some 0)).2
            (convertReplicas
               [CNodes [config.mkNode "worker" "img" (Some 1) (Some 2%Z);
                        config.mkNode "control-plane" "img" None None];
                CMounts ["/var/lib"]] (Some 0)).1.
Proof. exact (convertReplicas_idempotent _ _ sample_mounted_wf). Defined.



Lemma undispatched_role_never_succeeds_witness :
  is_Some (Some (errorString "unknown node role: external-etcd")).
Proof.
  eapply (undispatched_role_never_succeeds (consts := Sample.constants)
            (api := Sample.api)
            (Sample.store
               [config.mkNode "external-etcd" "img" None None; Sample.worker])
            Sample.cfg "kind" "label" [] [Go 0; Go 0] _ _ _
            (mkSpec "kind-external-etcd" "external-etcd" "img" None)).
  - vm_compute. apply elem_of_cons. by left.
  - simpl. rewrite !not_elem_of_cons.
    split_and!; try discriminate. apply not_elem_of_nil.
  - vm_compute. reflexivity.
  - reflexivity.
Defined.

Lemma sends_before_return_witness :
  match run [Go 0; Go 1]
          (@createNodeContainers Sample.constants Sample.api string
             (Sample.store [Sample.worker; Sample.edge])
             Sample.cfg "kind" "label" []) with
  | None => False
  | Some s =>
      (∃ s', step (Go 0) s = Some s'
             ∧ tasks s' = <[0 := Finished]> (tasks s)
             ∧ nodeChan s' = nodeChan s ++ [("kind-worker", "img")]
             ∧ main s' = Collecting [])
      ∧ (∃ s', step (Go 1) s = Some s'
               ∧ main s'
                 = Returned [] (Some (errorString "unknown node role: edge")))
  end.
Proof.
  destruct (run [Go 0; Go 1]
              (@createNodeContainers Sample.constants Sample.api string
                 (Sample.store [Sample.worker; Sample.edge])
                 Sample.cfg "kind" "label" [])) as [s|] eqn:Hrun.
  - assert (main s = Collecting []
            ∧ tasks s !! 0 = Some (SendNode ("kind-worker", "img"))
            ∧ tasks s !! 1
              = Some (SendErr (errorString "unknown node role: edge")))
      as (Hmain & H0 & H1).
    { vm_compute in Hrun. injection Hrun as <-. by split_and!. }
    destruct (sends_before_return _ _ _ _ _ _ _ _ Hrun Hmain)
      as (_ & Hnode & Herr).
    split; [by apply Hnode|by apply Herr].
  - vm_compute in Hrun. discriminate.
Defined.


Lemma moves_before_return_bounded_witness :
  length [Go 0; Go 1; Go 0; Select]
  ≤ 3 * length (nodesToCreate (Sample.store [Sample.worker; Sample.worker])
                  Sample.cfg "kind").1.
Proof.
  eapply (moves_before_return_bounded (consts := Sample.constants)
            (api := Sample.api)
            (Sample.store [Sample.worker; Sample.worker]) Sample.cfg
            "kind" "label" [] [Go 0; Go 1; Go 0; Select]).
  - vm_compute. reflexivity.
  - vm_compute. tauto.
Defined.
